(** * DeKeyBounce: the per-key debounce engine of [DeKeyBounce.c]

    A shallow embedding of [main]'s threshold configuration, of the key set
    (a [CFMutableSet] with the callbacks [IsKeyDataEqual], [KeyDataHash] and
    [RetainKeyData]) and of the event-tap callback [OnKeyEvent], followed by
    the properties of the debounce state machine.

    Conventions.
    - [uint64_t] values are integers of [Z]; every assignment to a
      [uint64_t] and every [uint64_t] addition or multiplication is written
      with its reduction modulo [2^64] ([to_uint64]).
    - The key set is a list of [KeyData] records.  [CFSetGetValue] returns the
      first member equal to the probe under [IsKeyDataEqual]; [CFSetAddValue]
      inserts a retained copy unless an equal member is already present (the
      documented behaviour of [CFSetAddValue]).  [CFAllocatorAllocate] inside
      [RetainKeyData] is taken to succeed.
    - A write through [pOldKeyData] updates, inside the set, the member that
      [CFSetGetValue] returned.
    - The callback returns [rEvent] ([Pass]) or [NULL] ([Swallow]). *)

From Stdlib Require Import ZArith List Bool Lia.
Import ListNotations.

Open Scope Z_scope.

(** ** Machine integers *)

Definition u64_modulus : Z := 2 ^ 64.

Definition to_uint64 (z : Z) : Z := z mod u64_modulus.

Definition is_uint64 (z : Z) : Prop := 0 <= z < u64_modulus.

(** ** Data model *)

(** [#define DEFAULT_MIN_TIMESTAMP_DIFF 20UL] *)
Definition DEFAULT_MIN_TIMESTAMP_DIFF : Z := 20.

(** [typedef struct _KeyData { uint64_t nKeyCode; uint64_t nLastKeyUpTimestamp; } KeyData;] *)
Record KeyData : Type := mkKeyData {
  nKeyCode : Z;
  nLastKeyUpTimestamp : Z
}.

(** The event types the callback distinguishes: the two cases of the
    [switch], and every other type (no [default] branch). *)
Inductive CGEventType : Type :=
  | kCGEventKeyDown
  | kCGEventKeyUp
  | kCGEventOther.

(** What [OnKeyEvent] reads from [rEvent]: the [int64_t] result of
    [CGEventGetIntegerValueField(rEvent, kCGKeyboardEventKeycode)] and the
    [uint64_t] result of [CGEventGetTimestamp(rEvent)]. *)
Record CGEvent : Type := mkCGEvent {
  keycode : Z;
  timestamp : Z
}.

(** The callback's result: [rEvent] is handed on, or [NULL] is returned. *)
Inductive Verdict : Type :=
  | Pass
  | Swallow.

(** The stored timestamp that stands for a key held down. *)
Definition PRESSED : Z := 0.

(** ** Start-up configuration ([main], lines 73-77)

    [argv1] is [None] when [argc <= 1] and otherwise the value returned by
    [strtoul(argv[1], NULL, 10)]. *)
Definition main_config (argv1 : option Z) : Z :=
  let d0 := 0 in
  let d1 := match argv1 with
            | Some v => to_uint64 v
            | None => d0
            end in
  let d2 := if d1 =? 0 then DEFAULT_MIN_TIMESTAMP_DIFF else d1 in
  to_uint64 (d2 * 1000000).

(** ** The key set *)

Definition IsKeyDataEqual (pValue1 pValue2 : KeyData) : bool :=
  nKeyCode pValue1 =? nKeyCode pValue2.

Definition KeyDataHash (pValue : KeyData) : Z := nKeyCode pValue.

Definition RetainKeyData (pValue : KeyData) : KeyData :=
  {| nKeyCode := nKeyCode pValue;
     nLastKeyUpTimestamp := nLastKeyUpTimestamp pValue |}.

Definition CFSet : Type := list KeyData.

Fixpoint CFSetGetValue (theSet : CFSet) (probe : KeyData) : option KeyData :=
  match theSet with
  | [] => None
  | d :: rest =>
      if IsKeyDataEqual d probe then Some d else CFSetGetValue rest probe
  end.

Definition CFSetAddValue (theSet : CFSet) (value : KeyData) : CFSet :=
  match CFSetGetValue theSet value with
  | Some _ => theSet
  | None => RetainKeyData value :: theSet
  end.

(** [pOldKeyData->nLastKeyUpTimestamp = x] where [pOldKeyData] is the result
    of [CFSetGetValue(theSet, probe)]. *)
Fixpoint store_nLastKeyUpTimestamp (theSet : CFSet) (probe : KeyData) (x : Z)
  : CFSet :=
  match theSet with
  | [] => []
  | d :: rest =>
      if IsKeyDataEqual d probe
      then {| nKeyCode := nKeyCode d; nLastKeyUpTimestamp := x |} :: rest
      else d :: store_nLastKeyUpTimestamp rest probe x
  end.

(** ** The engine ([OnKeyEvent], lines 203-242) *)

Section Engine.

(** [static CGEventTimestamp theMinTimestampDiff], fixed by [main] before
    the run loop starts. *)
Variable theMinTimestampDiff : Z.

Definition OnKeyEvent (theKeySet : CFSet) (aEventType : CGEventType)
    (rEvent : CGEvent) : Verdict * CFSet :=
  let aNewKeyData :=
    {| nKeyCode := to_uint64 (keycode rEvent);
       nLastKeyUpTimestamp := to_uint64 (timestamp rEvent) |} in
  let pOldKeyData := CFSetGetValue theKeySet aNewKeyData in
  match aEventType with
  | kCGEventKeyDown =>
      match pOldKeyData with
      | None => (Pass, theKeySet)
      | Some old =>
          if nLastKeyUpTimestamp old =? 0 then (Swallow, theKeySet)
          else if nLastKeyUpTimestamp aNewKeyData
                  <? to_uint64 (nLastKeyUpTimestamp old + theMinTimestampDiff)
          then (Swallow, store_nLastKeyUpTimestamp theKeySet aNewKeyData 0)
          else (Pass, theKeySet)
      end
  | kCGEventKeyUp =>
      match pOldKeyData with
      | None => (Pass, CFSetAddValue theKeySet aNewKeyData)
      | Some old =>
          if nLastKeyUpTimestamp old =? 0
          then (Swallow,
                store_nLastKeyUpTimestamp theKeySet aNewKeyData
                  (nLastKeyUpTimestamp aNewKeyData))
          else (Pass,
                store_nLastKeyUpTimestamp theKeySet aNewKeyData
                  (nLastKeyUpTimestamp aNewKeyData))
      end
  | kCGEventOther => (Pass, theKeySet)
  end.

(** The run loop delivers events one at a time; [run] collects the verdicts
    in delivery order and threads the key set. *)
Fixpoint run (theKeySet : CFSet) (events : list (CGEventType * CGEvent))
  : list Verdict * CFSet :=
  match events with
  | [] => ([], theKeySet)
  | (ty, ev) :: rest =>
      let '(v, s1) := OnKeyEvent theKeySet ty ev in
      let '(vs, s2) := run s1 rest in
      (v :: vs, s2)
  end.

End Engine.

(** [main] after the privilege checks: configure the threshold, [Init] the
    empty key set, then serve the events of the run loop. *)
Definition daemon (argv1 : option Z) (events : list (CGEventType * CGEvent))
  : list Verdict * CFSet :=
  run (main_config argv1) [] events.

(** ** Observations used by the statements *)

(** The key identity an event is filed under. *)
Definition key_of (ev : CGEvent) : Z := to_uint64 (keycode ev).

(** The state of key [k]: [None] when the set has no record for [k],
    otherwise the stored [nLastKeyUpTimestamp] ([PRESSED] or a baseline). *)
Definition key_state (theKeySet : CFSet) (k : Z) : option Z :=
  option_map nLastKeyUpTimestamp
    (CFSetGetValue theKeySet {| nKeyCode := k; nLastKeyUpTimestamp := 0 |}).

(** The verdicts given to the events of key [k], in order. *)
Definition verdicts_for (k : Z) (events : list (CGEventType * CGEvent))
    (vs : list Verdict) : list Verdict :=
  map snd (filter (fun p => key_of (snd (fst p)) =? k) (combine events vs)).

Definition events_of (k : Z) (events : list (CGEventType * CGEvent))
  : list (CGEventType * CGEvent) :=
  filter (fun p => key_of (snd p) =? k) events.

Definition press (k t : Z) : CGEventType * CGEvent :=
  (kCGEventKeyDown, {| keycode := k; timestamp := t |}).

Definition release (k t : Z) : CGEventType * CGEvent :=
  (kCGEventKeyUp, {| keycode := k; timestamp := t |}).

(** The verdict of every delivery together with the state of key [k] right
    after it. *)
Fixpoint trace (theMinTimestampDiff : Z) (theKeySet : CFSet) (k : Z)
    (events : list (CGEventType * CGEvent)) : list (Verdict * option Z) :=
  match events with
  | [] => []
  | (ty, ev) :: rest =>
      let '(v, s1) := OnKeyEvent theMinTimestampDiff theKeySet ty ev in
      (v, key_state s1 k) :: trace theMinTimestampDiff s1 k rest
  end.

(** [OnKeyEvent] seen from one key: the verdict and the key's next state as
    a function of the key's current state, the event type and the event's
    ([uint64_t]) timestamp.  [OnKeyEvent_key_step] below relates the two. *)
Definition key_step (theMinTimestampDiff : Z) (st : option Z)
    (aEventType : CGEventType) (ts : Z) : Verdict * option Z :=
  match aEventType with
  | kCGEventKeyDown =>
      match st with
      | None => (Pass, None)
      | Some T =>
          if T =? 0 then (Swallow, Some T)
          else if ts <? to_uint64 (T + theMinTimestampDiff)
          then (Swallow, Some 0)
          else (Pass, Some T)
      end
  | kCGEventKeyUp =>
      match st with
      | None => (Pass, Some ts)
      | Some T => if T =? 0 then (Swallow, Some ts) else (Pass, Some ts)
      end
  | kCGEventOther => (Pass, st)
  end.

Fixpoint key_trace (theMinTimestampDiff : Z) (st : option Z)
    (events : list (CGEventType * Z)) : list (Verdict * option Z) :=
  match events with
  | [] => []
  | (ty, ts) :: rest =>
      let r := key_step theMinTimestampDiff st ty ts in
      r :: key_trace theMinTimestampDiff (snd r) rest
  end.

(** The press rule read over unbounded integers: the sum [T + minInterval]
    is the mathematical one. *)
Definition press_rule_unbounded (minInterval : Z) (theKeySet : CFSet)
    (ev : CGEvent) (T : Z) : Prop :=
  key_state theKeySet (key_of ev) = Some T ->
  T <> PRESSED ->
  is_uint64 (timestamp ev) ->
  (T + minInterval <= timestamp ev ->
   OnKeyEvent minInterval theKeySet kCGEventKeyDown ev = (Pass, theKeySet)) /\
  (timestamp ev < T + minInterval ->
   fst (OnKeyEvent minInterval theKeySet kCGEventKeyDown ev) = Swallow /\
   key_state (snd (OnKeyEvent minInterval theKeySet kCGEventKeyDown ev))
     (key_of ev) = Some PRESSED).

(** A key released one nanosecond before the 64-bit clock would wrap, and a
    press of it at that same instant. *)
Definition late_baseline : Z := u64_modulus - 1.

Definition late_set : CFSet :=
  [ {| nKeyCode := 7; nLastKeyUpTimestamp := late_baseline |} ].

Definition late_press : CGEvent :=
  {| keycode := 7; timestamp := late_baseline |}.

Ltac key_cases :=
  repeat (simpl in *; unfold IsKeyDataEqual in *; simpl in *;
          match goal with
          | |- context [?a =? ?b] => destruct (Z.eqb_spec a b)
          | H : context [?a =? ?b] |- _ => destruct (Z.eqb_spec a b)
          end);
  simpl in *; try congruence; auto.

(** Closes a goal [is_uint64 z] for a numeral [z]. *)
Ltac u64_range := split; [vm_compute; discriminate | vm_compute; reflexivity].

(** ** The state-machine table of the specification

    A reference model that follows the words of the specification's table:
    the per-key state is tagged ([Held] for the table's PRESSED, [Released T]
    for a baseline) and the timing test is over unbounded integers.  It is
    only used to compare the code against. *)
Module Spec.

Inductive KeyState : Type :=
  | Absent
  | Held
  | Released (T : Z).

Definition evaluate (minInterval : Z) (st : KeyState) (kind : CGEventType)
    (ts : Z) : Verdict * KeyState :=
  match kind with
  | kCGEventKeyDown =>
      match st with
      | Absent => (Pass, Absent)
      | Held => (Swallow, Held)
      | Released T =>
          if ts <? T + minInterval then (Swallow, Held) else (Pass, Released T)
      end
  | kCGEventKeyUp =>
      match st with
      | Absent => (Pass, Released ts)
      | Held => (Swallow, Released ts)
      | Released _ => (Pass, Released ts)
      end
  | kCGEventOther => (Pass, st)
  end.

Fixpoint run (minInterval : Z) (st : KeyState)
    (events : list (CGEventType * Z)) : list Verdict * KeyState :=
  match events with
  | [] => ([], st)
  | (kind, ts) :: rest =>
      let '(v, st1) := evaluate minInterval st kind ts in
      let '(vs, st2) := run minInterval st1 rest in
      (v :: vs, st2)
  end.

End Spec.

(** How the code stores a state of the table. *)
Definition encode (st : Spec.KeyState) : option Z :=
  match st with
  | Spec.Absent => None
  | Spec.Held => Some PRESSED
  | Spec.Released T => Some T
  end.

(** ** Observations on whole runs *)

Definition is_pass (v : Verdict) : bool :=
  match v with
  | Pass => true
  | Swallow => false
  end.

Definition is_release (e : CGEventType * CGEvent) : bool :=
  match fst e with
  | kCGEventKeyUp => true
  | _ => false
  end.

Definition is_press (e : CGEventType * CGEvent) : bool :=
  match fst e with
  | kCGEventKeyDown => true
  | _ => false
  end.

(** A property of the delivered sequence alone: every press comes at least
    [m] after the latest release of its key delivered before it.  [last]
    gives that release's timestamp per key. *)
Fixpoint well_spaced (m : Z) (last : Z -> option Z)
    (events : list (CGEventType * CGEvent)) : bool :=
  match events with
  | [] => true
  | (ty, ev) :: rest =>
      match ty with
      | kCGEventKeyDown =>
          match last (key_of ev) with
          | Some r => r + m <=? timestamp ev
          | None => true
          end && well_spaced m last rest
      | kCGEventKeyUp =>
          well_spaced m
            (fun k => if key_of ev =? k then Some (timestamp ev) else last k)
            rest
      | kCGEventOther => well_spaced m last rest
      end
  end.

Definition opposite (a b : CGEventType) : bool :=
  match a, b with
  | kCGEventKeyDown, kCGEventKeyUp => true
  | kCGEventKeyUp, kCGEventKeyDown => true
  | _, _ => false
  end.

(** Presses and releases in turn, nothing else. *)
Fixpoint alternating (l : list CGEventType) : bool :=
  match l with
  | [] => true
  | x :: rest =>
      match rest with
      | [] => opposite x kCGEventKeyDown || opposite x kCGEventKeyUp
      | y :: _ => opposite x y
      end && alternating rest
  end.

(** The types of the events of key [k] that were handed on, in order. *)
Definition passed_of (k : Z) (events : list (CGEventType * CGEvent))
    (vs : list Verdict) : list CGEventType :=
  map (fun p => fst (fst p))
    (filter (fun p => (key_of (snd (fst p)) =? k) && is_pass (snd p))
       (combine events vs)).

(** How many presses, and how many releases, of key [k] were swallowed. *)
Definition swallowed_presses (k : Z) (events : list (CGEventType * CGEvent))
    (vs : list Verdict) : nat :=
  length (filter (fun p => is_press (fst p) && (key_of (snd (fst p)) =? k)
                           && negb (is_pass (snd p)))
            (combine events vs)).

Definition swallowed_releases (k : Z) (events : list (CGEventType * CGEvent))
    (vs : list Verdict) : nat :=
  length (filter (fun p => is_release (fst p) && (key_of (snd (fst p)) =? k)
                           && negb (is_pass (snd p)))
            (combine events vs)).

(** The key codes released in a sequence, each once. *)
Definition released_keys (events : list (CGEventType * CGEvent)) : list Z :=
  nodup Z.eq_dec (map (fun e => key_of (snd e)) (filter is_release events)).


(** ** The process around the engine

    [main], [InitSignalHandling], [DeinitSignalHandling], [SignalHandler],
    [SignalCallBack], [Init] and [Deinit] act on the file's static variables
    and on the platform.  The static variables are a record; the platform's
    answers (user and parent ids, whether each creation and each [sigaction]
    succeeds) are a parameter; the platform calls that matter for resources
    and signals are logged in order. *)

(** The Core Foundation objects the program creates, one per static
    variable that holds one. *)
Inductive Object : Type :=
  | SignalPortObj
  | SignalSourceObj
  | KeySetObj
  | EventTapObj
  | EventTapSourceObj.

Inductive Signal : Type :=
  | SIGHUP
  | SIGINT
  | SIGTERM
  | SIGPIPE.

(** The [sa_handler] values the program installs. *)
Inductive Disposition : Type :=
  | SIG_DFL
  | SIG_IGN
  | SIG_SignalHandler.

Inductive Call : Type :=
  | Created (o : Object)
  | CFRelease (o : Object)
  | CFRunLoopAddSource (o : Object)
  | CFRunLoopRemoveSource (o : Object)
  | sigaction (sig : Signal) (d : Disposition) (ok : bool)
  | mach_msg_send (sig : Signal).

Record Platform : Type := mkPlatform {
  geteuid : Z;
  getppid : Z;
  CFMachPortCreate_ok : bool;
  SignalSource_ok : bool;
  sigaction_ok : Signal -> Disposition -> bool;
  CFSetCreateMutable_ok : bool;
  CGEventTapCreate_ok : bool;
  EventTapSource_ok : bool
}.

(** The static variables; a pointer is [true] when it is not [NULL], and
    [theKeySet] carries the set's members. *)
Record Globals : Type := mkGlobals {
  theSignalPort : bool;
  theSignalSource : bool;
  theRawSignalPort : bool;
  theKeySet : option CFSet;
  theEventTap : bool;
  theEventTapSource : bool;
  theMinTimestampDiff : Z
}.

(** The static initialisers. *)
Definition initial_globals : Globals :=
  {| theSignalPort := false; theSignalSource := false;
     theRawSignalPort := false; theKeySet := None; theEventTap := false;
     theEventTapSource := false; theMinTimestampDiff := 0 |}.

Definition set_theSignalPort (b : bool) (g : Globals) : Globals :=
  mkGlobals b (theSignalSource g) (theRawSignalPort g) (theKeySet g)
    (theEventTap g) (theEventTapSource g) (theMinTimestampDiff g).

Definition set_theSignalSource (b : bool) (g : Globals) : Globals :=
  mkGlobals (theSignalPort g) b (theRawSignalPort g) (theKeySet g)
    (theEventTap g) (theEventTapSource g) (theMinTimestampDiff g).

Definition set_theRawSignalPort (b : bool) (g : Globals) : Globals :=
  mkGlobals (theSignalPort g) (theSignalSource g) b (theKeySet g)
    (theEventTap g) (theEventTapSource g) (theMinTimestampDiff g).

Definition set_theKeySet (s : option CFSet) (g : Globals) : Globals :=
  mkGlobals (theSignalPort g) (theSignalSource g) (theRawSignalPort g) s
    (theEventTap g) (theEventTapSource g) (theMinTimestampDiff g).

Definition set_theEventTap (b : bool) (g : Globals) : Globals :=
  mkGlobals (theSignalPort g) (theSignalSource g) (theRawSignalPort g)
    (theKeySet g) b (theEventTapSource g) (theMinTimestampDiff g).

Definition set_theEventTapSource (b : bool) (g : Globals) : Globals :=
  mkGlobals (theSignalPort g) (theSignalSource g) (theRawSignalPort g)
    (theKeySet g) (theEventTap g) b (theMinTimestampDiff g).

Definition set_theMinTimestampDiff (d : Z) (g : Globals) : Globals :=
  mkGlobals (theSignalPort g) (theSignalSource g) (theRawSignalPort g)
    (theKeySet g) (theEventTap g) (theEventTapSource g) d.

(** Computations on the static variables that log their platform calls. *)
Definition Proc (A : Type) : Type := Globals -> A * Globals * list Call.

Definition ret {A : Type} (a : A) : Proc A := fun g => (a, g, []).

Definition bind {A B : Type} (c : Proc A) (k : A -> Proc B) : Proc B :=
  fun g =>
    let '(a, g1, l1) := c g in
    let '(b, g2, l2) := k a g1 in
    (b, g2, l1 ++ l2).

Notation "x <- c ;; k" := (bind c (fun x => k))
  (at level 61, c at next level, right associativity).
Notation "c ;; k" := (bind c (fun _ => k))
  (at level 61, right associativity).

Definition call (c : Call) : Proc unit := fun g => (tt, g, [c]).

Definition read {A : Type} (f : Globals -> A) : Proc A := fun g => (f g, g, []).

Definition assign (f : Globals -> Globals) : Proc unit :=
  fun g => (tt, f g, []).

Definition when (b : bool) (c : Proc unit) : Proc unit :=
  if b then c else ret tt.

Section Process.

Variable platform : Platform.

(** A [sigaction] call and whether it returned 0. *)
Definition do_sigaction (sig : Signal) (d : Disposition) : Proc bool :=
  let ok := sigaction_ok platform sig d in
  call (sigaction sig d ok) ;; ret ok.

(** [DeinitSignalHandling], lines 126-146. *)
Definition DeinitSignalHandling : Proc unit :=
  do_sigaction SIGPIPE SIG_DFL ;;
  do_sigaction SIGTERM SIG_DFL ;;
  do_sigaction SIGINT SIG_DFL ;;
  do_sigaction SIGHUP SIG_DFL ;;
  assign (set_theRawSignalPort false) ;;
  src <- read theSignalSource ;;
  when src
    (call (CFRunLoopRemoveSource SignalSourceObj) ;;
     call (CFRelease SignalSourceObj) ;;
     assign (set_theSignalSource false)) ;;
  port <- read theSignalPort ;;
  when port
    (call (CFRelease SignalPortObj) ;;
     assign (set_theSignalPort false)).

(** The [do { ... } while(0)] block of [InitSignalHandling], lines 92-117;
    the result is [isSuccess]. *)
Definition InitSignalHandling_body : Proc bool :=
  if CFMachPortCreate_ok platform then
    call (Created SignalPortObj) ;;
    assign (set_theSignalPort true) ;;
    if SignalSource_ok platform then
      call (Created SignalSourceObj) ;;
      assign (set_theSignalSource true) ;;
      call (CFRunLoopAddSource SignalSourceObj) ;;
      assign (set_theRawSignalPort true) ;;
      hup <- do_sigaction SIGHUP SIG_SignalHandler ;;
      if negb hup then ret false else
      int <- do_sigaction SIGINT SIG_SignalHandler ;;
      if negb int then ret false else
      term <- do_sigaction SIGTERM SIG_SignalHandler ;;
      if negb term then ret false else
      pipe <- do_sigaction SIGPIPE SIG_IGN ;;
      if negb pipe then ret false else
      ret true
    else
      assign (set_theSignalSource false) ;; ret false
  else
    assign (set_theSignalPort false) ;; ret false.

(** [InitSignalHandling], lines 89-124. *)
Definition InitSignalHandling : Proc bool :=
  isSuccess <- InitSignalHandling_body ;;
  if negb isSuccess then DeinitSignalHandling ;; ret false else ret true.

(** [SignalHandler], lines 148-161. *)
Definition SignalHandler (nSignal : Signal) : Proc unit :=
  raw <- read theRawSignalPort ;;
  if negb raw then ret tt else call (mach_msg_send nSignal).

(** [SignalCallBack], lines 163-175: whether [CFRunLoopStop] is called for
    a message whose [msgh_id] is the given signal. *)
Definition SignalCallBack (msgh_id : Signal) : bool :=
  match msgh_id with
  | SIGHUP => false
  | SIGINT => true
  | SIGTERM => true
  | SIGPIPE => false
  end.

(** [Deinit], lines 244-260. *)
Definition Deinit : Proc unit :=
  src <- read theEventTapSource ;;
  when src
    (call (CFRunLoopRemoveSource EventTapSourceObj) ;;
     call (CFRelease EventTapSourceObj) ;;
     assign (set_theEventTapSource false)) ;;
  tap <- read theEventTap ;;
  when tap
    (call (CFRelease EventTapObj) ;;
     assign (set_theEventTap false)) ;;
  set <- read theKeySet ;;
  match set with
  | Some _ =>
      call (CFRelease KeySetObj) ;;
      assign (set_theKeySet None)
  | None => ret tt
  end.

(** The [do { ... } while(0)] block of [Init], lines 180-194. *)
Definition Init_body : Proc bool :=
  if CFSetCreateMutable_ok platform then
    call (Created KeySetObj) ;;
    assign (set_theKeySet (Some [])) ;;
    if CGEventTapCreate_ok platform then
      call (Created EventTapObj) ;;
      assign (set_theEventTap true) ;;
      if EventTapSource_ok platform then
        call (Created EventTapSourceObj) ;;
        assign (set_theEventTapSource true) ;;
        call (CFRunLoopAddSource EventTapSourceObj) ;;
        ret true
      else
        assign (set_theEventTapSource false) ;; ret false
    else
      assign (set_theEventTap false) ;; ret false
  else
    assign (set_theKeySet None) ;; ret false.

(** [Init], lines 177-201. *)
Definition Init : Proc bool :=
  isSuccess <- Init_body ;;
  if negb isSuccess then Deinit ;; ret false else ret true.

End Process.

(** What the run loop dispatches: an event of the tap, to [OnKeyEvent], or a
    message on the signal port, to [SignalCallBack]. *)
Inductive LoopInput : Type :=
  | TapEvent (ty : CGEventType) (ev : CGEvent)
  | PortMessage (msgh_id : Signal).

(** How [CFRunLoopRun] ends on a finite sequence of inputs: stopped by
    [CFRunLoopStop], still waiting when the inputs are used up, or an event
    dispatched to [OnKeyEvent] while [theKeySet] is [NULL]. *)
Inductive LoopEnd : Type :=
  | Stopped
  | Waiting
  | NullKeySet.

Fixpoint CFRunLoopRun (inputs : list LoopInput) : Proc (list Verdict * LoopEnd) :=
  match inputs with
  | [] => ret ([], Waiting)
  | TapEvent ty ev :: rest =>
      set <- read theKeySet ;;
      match set with
      | None => ret ([], NullKeySet)
      | Some s =>
          m <- read theMinTimestampDiff ;;
          let r := OnKeyEvent m s ty ev in
          assign (set_theKeySet (Some (snd r))) ;;
          out <- CFRunLoopRun rest ;;
          ret (fst r :: fst out, snd out)
      end
  | PortMessage msgh_id :: rest =>
      if SignalCallBack msgh_id then ret ([], Stopped)
      else CFRunLoopRun rest
  end.

Inductive Outcome : Type :=
  | Exit (code : Z)
  | Running
  | Crashed.

(** [main], lines 65-87.  [argv1] is as for [main_config]. *)
Definition main (platform : Platform) (argv1 : option Z)
    (inputs : list LoopInput) : Proc (Outcome * list Verdict) :=
  if negb (geteuid platform =? 0) then ret (Exit 1, []) else
  if negb (getppid platform =? 1) then ret (Exit 1, []) else
  sig <- InitSignalHandling platform ;;
  if negb sig then ret (Exit 1, []) else
  d0 <- read theMinTimestampDiff ;;
  let d1 := match argv1 with
            | Some v => to_uint64 v
            | None => d0
            end in
  let d2 := if d1 =? 0 then DEFAULT_MIN_TIMESTAMP_DIFF else d1 in
  assign (set_theMinTimestampDiff (to_uint64 (d2 * 1000000))) ;;
  ok <- Init platform ;;
  if negb ok then DeinitSignalHandling platform ;; ret (Exit 1, []) else
  out <- CFRunLoopRun inputs ;;
  match snd out with
  | Stopped =>
      Deinit ;;
      DeinitSignalHandling platform ;;
      ret (Exit 0, fst out)
  | Waiting => ret (Running, fst out)
  | NullKeySet => ret (Crashed, fst out)
  end.

(** Replays a log of calls: [None] if an object is created while it exists,
    released or added as a source while it does not exist, or removed as a
    source while it is not one; otherwise the objects that exist and the
    sources that are registered at the end. *)
Definition Object_eqb (a b : Object) : bool :=
  match a, b with
  | SignalPortObj, SignalPortObj => true
  | SignalSourceObj, SignalSourceObj => true
  | KeySetObj, KeySetObj => true
  | EventTapObj, EventTapObj => true
  | EventTapSourceObj, EventTapSourceObj => true
  | _, _ => false
  end.

Definition holds (o : Object) (l : list Object) : bool :=
  existsb (Object_eqb o) l.

Definition drop (o : Object) (l : list Object) : list Object :=
  filter (fun x => negb (Object_eqb o x)) l.

Fixpoint replay (live sources : list Object) (log : list Call)
  : option (list Object * list Object) :=
  match log with
  | [] => Some (live, sources)
  | Created o :: rest =>
      if holds o live then None else replay (o :: live) sources rest
  | CFRelease o :: rest =>
      if holds o live then replay (drop o live) sources rest else None
  | CFRunLoopAddSource o :: rest =>
      if holds o live && negb (holds o sources)
      then replay live (o :: sources) rest else None
  | CFRunLoopRemoveSource o :: rest =>
      if holds o sources then replay live (drop o sources) rest else None
  | sigaction _ _ _ :: rest => replay live sources rest
  | mach_msg_send _ :: rest => replay live sources rest
  end.

(** The handler in force for a signal after a log of calls, given the one
    in force before: that of the last [sigaction] on it that succeeded. *)
Fixpoint disposition_after (log : list Call) (sig : Signal) (before : Disposition)
  : Disposition :=
  match log with
  | [] => before
  | sigaction s d true :: rest =>
      disposition_after rest sig
        (match s, sig with
         | SIGHUP, SIGHUP | SIGINT, SIGINT
         | SIGTERM, SIGTERM | SIGPIPE, SIGPIPE => d
         | _, _ => before
         end)
  | _ :: rest => disposition_after rest sig before
  end.

(** The tap events dispatched before the first message that stops the run
    loop, and whether there is such a message. *)
Fixpoint dispatched (inputs : list LoopInput) : list (CGEventType * CGEvent) :=
  match inputs with
  | [] => []
  | TapEvent ty ev :: rest => (ty, ev) :: dispatched rest
  | PortMessage msgh_id :: rest =>
      if SignalCallBack msgh_id then [] else dispatched rest
  end.

Fixpoint stop_requested (inputs : list LoopInput) : bool :=
  match inputs with
  | [] => false
  | TapEvent _ _ :: rest => stop_requested rest
  | PortMessage msgh_id :: rest =>
      SignalCallBack msgh_id || stop_requested rest
  end.

Definition all_null (g : Globals) : bool :=
  negb (theSignalPort g) && negb (theSignalSource g)
  && negb (theRawSignalPort g)
  && match theKeySet g with None => true | Some _ => false end
  && negb (theEventTap g) && negb (theEventTapSource g).


(** The three parts of what a computation yields. *)
Definition result {A : Type} (r : A * Globals * list Call) : A := fst (fst r).

Definition globals_after {A : Type} (r : A * Globals * list Call) : Globals :=
  snd (fst r).

Definition calls {A : Type} (r : A * Globals * list Call) : list Call := snd r.

(** The platform's answers that each start-up step depends on. *)
Definition privileged (p : Platform) : bool :=
  (geteuid p =? 0) && (getppid p =? 1).

Definition signals_ok (p : Platform) : bool :=
  CFMachPortCreate_ok p && SignalSource_ok p
  && sigaction_ok p SIGHUP SIG_SignalHandler
  && sigaction_ok p SIGINT SIG_SignalHandler
  && sigaction_ok p SIGTERM SIG_SignalHandler
  && sigaction_ok p SIGPIPE SIG_IGN.

Definition tap_ok (p : Platform) : bool :=
  CFSetCreateMutable_ok p && CGEventTapCreate_ok p && EventTapSource_ok p.

(** A platform on which everything succeeds, for the examples. *)
Definition good_platform : Platform :=
  {| geteuid := 0; getppid := 1; CFMachPortCreate_ok := true;
     SignalSource_ok := true; sigaction_ok := fun _ _ => true;
     CFSetCreateMutable_ok := true; CGEventTapCreate_ok := true;
     EventTapSource_ok := true |}.

(** A platform on which the event tap cannot be created. *)
Definition no_tap_platform : Platform :=
  {| geteuid := 0; getppid := 1; CFMachPortCreate_ok := true;
     SignalSource_ok := true; sigaction_ok := fun _ _ => true;
     CFSetCreateMutable_ok := true; CGEventTapCreate_ok := false;
     EventTapSource_ok := true |}.


(** Unfolds the process definitions down to functions on the static
    variables. *)
Ltac unfold_process :=
  unfold main, InitSignalHandling, InitSignalHandling_body,
    DeinitSignalHandling, Init, Init_body, Deinit, do_sigaction, result,
    globals_after, calls, bind, call, read, assign, when, ret.

(** * Properties *)

(** ** Machine integers *)

Lemma u64_modulus_value : u64_modulus = 18446744073709551616.
Proof. reflexivity. Qed.

Lemma to_uint64_is_uint64 (z : Z) : is_uint64 (to_uint64 z).
Proof.
  unfold is_uint64, to_uint64. apply Z.mod_pos_bound.
  rewrite u64_modulus_value. lia.
Qed.

Lemma to_uint64_small (z : Z) : is_uint64 z -> to_uint64 z = z.
Proof. unfold is_uint64, to_uint64. intros H. now apply Z.mod_small. Qed.

Lemma to_uint64_wraps (z : Z) :
  u64_modulus <= z < 2 * u64_modulus -> to_uint64 z = z - u64_modulus.
Proof.
  intros H. unfold to_uint64.
  symmetry. apply Z.mod_unique with (q := 1); lia.
Qed.

Lemma main_config_is_uint64 (argv1 : option Z) : is_uint64 (main_config argv1).
Proof. unfold main_config. apply to_uint64_is_uint64. Qed.

(** ** The key set *)

(** Equal records hash alike, as a [CFSet] requires of its callbacks. *)
Lemma KeyDataHash_IsKeyDataEqual (a b : KeyData) :
  IsKeyDataEqual a b = true -> KeyDataHash a = KeyDataHash b.
Proof. unfold IsKeyDataEqual, KeyDataHash. apply Z.eqb_eq. Qed.

Lemma CFSetGetValue_probe (s : CFSet) (p q : KeyData) :
  nKeyCode p = nKeyCode q -> CFSetGetValue s p = CFSetGetValue s q.
Proof.
  intros E. induction s as [|d s IH]; simpl; [reflexivity|].
  unfold IsKeyDataEqual. rewrite E, IH. reflexivity.
Qed.

Lemma CFSetGetValue_key (s : CFSet) (p d : KeyData) :
  CFSetGetValue s p = Some d -> nKeyCode d = nKeyCode p.
Proof.
  induction s as [|e s IH]; simpl; [discriminate|].
  unfold IsKeyDataEqual. destruct (Z.eqb_spec (nKeyCode e) (nKeyCode p)) as [E|N].
  - intros [= <-]. exact E.
  - exact IH.
Qed.

Lemma CFSetGetValue_None (s : CFSet) (p : KeyData) :
  CFSetGetValue s p = None <-> ~ In (nKeyCode p) (map nKeyCode s).
Proof.
  induction s as [|e s IH]; simpl.
  - tauto.
  - unfold IsKeyDataEqual.
    destruct (Z.eqb_spec (nKeyCode e) (nKeyCode p)) as [E|N].
    + split; [discriminate | intros H; exfalso; apply H; now left].
    + rewrite IH. tauto.
Qed.

Lemma key_state_probe (s : CFSet) (p : KeyData) :
  key_state s (nKeyCode p) = option_map nLastKeyUpTimestamp (CFSetGetValue s p).
Proof.
  unfold key_state. f_equal. now apply CFSetGetValue_probe.
Qed.

Lemma key_state_None (s : CFSet) (k : Z) :
  key_state s k = None <-> ~ In k (map nKeyCode s).
Proof.
  unfold key_state. rewrite <- (CFSetGetValue_None s (mkKeyData k 0)).
  destruct (CFSetGetValue s (mkKeyData k 0)); simpl; split; congruence.
Qed.

Lemma store_keys (s : CFSet) (p : KeyData) (x : Z) :
  map nKeyCode (store_nLastKeyUpTimestamp s p x) = map nKeyCode s.
Proof.
  induction s as [|e s IH]; simpl; [reflexivity|].
  destruct (IsKeyDataEqual e p); simpl; [reflexivity | now rewrite IH].
Qed.

Lemma key_state_store_same (s : CFSet) (p : KeyData) (x : Z) :
  key_state s (nKeyCode p) <> None ->
  key_state (store_nLastKeyUpTimestamp s p x) (nKeyCode p) = Some x.
Proof.
  unfold key_state. induction s as [|e s IH]; key_cases.
Qed.

Lemma key_state_store_other (s : CFSet) (p : KeyData) (x k : Z) :
  k <> nKeyCode p ->
  key_state (store_nLastKeyUpTimestamp s p x) k = key_state s k.
Proof.
  intros N. unfold key_state. induction s as [|e s IH]; key_cases.
Qed.

Lemma key_state_add_same (s : CFSet) (p : KeyData) :
  key_state s (nKeyCode p) = None ->
  key_state (CFSetAddValue s p) (nKeyCode p) = Some (nLastKeyUpTimestamp p).
Proof.
  rewrite key_state_probe. unfold CFSetAddValue.
  destruct (CFSetGetValue s p); simpl; [discriminate|].
  intros _. unfold key_state. key_cases.
Qed.

Lemma key_state_add_other (s : CFSet) (p : KeyData) (k : Z) :
  k <> nKeyCode p -> key_state (CFSetAddValue s p) k = key_state s k.
Proof.
  intros N. unfold CFSetAddValue.
  destruct (CFSetGetValue s p); [reflexivity|].
  unfold key_state. key_cases.
Qed.

(** ** [OnKeyEvent], one key at a time *)

Lemma event_probe (s : CFSet) (ev : CGEvent) (x : Z) :
  option_map nLastKeyUpTimestamp
    (CFSetGetValue s {| nKeyCode := to_uint64 (keycode ev);
                        nLastKeyUpTimestamp := x |})
  = key_state s (key_of ev).
Proof.
  unfold key_state, key_of. f_equal. now apply CFSetGetValue_probe.
Qed.

(** The verdict and the next state of the event's key are those of
    [key_step] at the key's current state. *)
Lemma OnKeyEvent_key_step (m : Z) (s : CFSet) (ty : CGEventType) (ev : CGEvent) :
  (fst (OnKeyEvent m s ty ev), key_state (snd (OnKeyEvent m s ty ev)) (key_of ev))
  = key_step m (key_state s (key_of ev)) ty (to_uint64 (timestamp ev)).
Proof.
  pose proof (event_probe s ev (to_uint64 (timestamp ev))) as P.
  set (probe := {| nKeyCode := to_uint64 (keycode ev);
                   nLastKeyUpTimestamp := to_uint64 (timestamp ev) |}) in *.
  assert (K : key_of ev = nKeyCode probe) by reflexivity.
  unfold OnKeyEvent, key_step. fold probe.
  destruct ty; simpl.
  - destruct (CFSetGetValue s probe) as [old|] eqn:G; simpl in P; rewrite <- P.
    + destruct (nLastKeyUpTimestamp old =? 0) eqn:Z0; simpl.
      * now rewrite <- P.
      * destruct (_ <? _); simpl.
        -- rewrite K, key_state_store_same; [reflexivity|].
           rewrite <- K, <- P. discriminate.
        -- now rewrite <- P.
    + simpl. now rewrite <- P.
  - destruct (CFSetGetValue s probe) as [old|] eqn:G; simpl in P; rewrite <- P.
    + assert (key_state s (nKeyCode probe) <> None)
        by (rewrite <- K, <- P; discriminate).
      destruct (nLastKeyUpTimestamp old =? 0); simpl;
        now rewrite K, key_state_store_same.
    + simpl. rewrite K, key_state_add_same; [reflexivity|].
      rewrite <- K. now rewrite <- P.
  - reflexivity.
Qed.

(** The records of all other keys are left alone. *)
Lemma OnKeyEvent_frame (m : Z) (s : CFSet) (ty : CGEventType) (ev : CGEvent)
    (k : Z) :
  k <> key_of ev ->
  key_state (snd (OnKeyEvent m s ty ev)) k = key_state s k.
Proof.
  intros N. unfold OnKeyEvent.
  set (probe := {| nKeyCode := to_uint64 (keycode ev);
                   nLastKeyUpTimestamp := to_uint64 (timestamp ev) |}).
  assert (K : k <> nKeyCode probe) by exact N.
  destruct ty; simpl; try reflexivity;
    destruct (CFSetGetValue s probe) as [old|]; simpl; try reflexivity;
    repeat match goal with |- context [if ?b then _ else _] => destruct b end;
    simpl; auto using key_state_store_other, key_state_add_other.
Qed.

(** A press never changes which keys have a record; a release adds the
    event's key when it had none. *)
Lemma OnKeyEvent_keys (m : Z) (s : CFSet) (ty : CGEventType) (ev : CGEvent) :
  map nKeyCode (snd (OnKeyEvent m s ty ev)) =
  match ty, key_state s (key_of ev) with
  | kCGEventKeyUp, None => key_of ev :: map nKeyCode s
  | _, _ => map nKeyCode s
  end.
Proof.
  rewrite <- (event_probe s ev (to_uint64 (timestamp ev))).
  unfold OnKeyEvent.
  set (probe := {| nKeyCode := to_uint64 (keycode ev);
                   nLastKeyUpTimestamp := to_uint64 (timestamp ev) |}).
  destruct ty; simpl; try reflexivity.
  - destruct (CFSetGetValue s probe) as [old|]; simpl; try reflexivity.
    repeat match goal with |- context [if ?b then _ else _] => destruct b end;
      simpl; auto using store_keys.
  - unfold CFSetAddValue.
    destruct (CFSetGetValue s probe) as [old|]; simpl.
    + destruct (_ =? 0); simpl; apply store_keys.
    + reflexivity.
Qed.

Lemma OnKeyEvent_KeyDown_eq (m : Z) (s : CFSet) (ev : CGEvent) :
  OnKeyEvent m s kCGEventKeyDown ev =
  match key_state s (key_of ev) with
  | None => (Pass, s)
  | Some T =>
      if T =? 0 then (Swallow, s)
      else if to_uint64 (timestamp ev) <? to_uint64 (T + m)
      then (Swallow,
            store_nLastKeyUpTimestamp s
              {| nKeyCode := key_of ev;
                 nLastKeyUpTimestamp := to_uint64 (timestamp ev) |} 0)
      else (Pass, s)
  end.
Proof.
  rewrite <- (event_probe s ev (to_uint64 (timestamp ev))).
  unfold OnKeyEvent, key_of.
  now destruct (CFSetGetValue s _) as [old|].
Qed.

Lemma OnKeyEvent_KeyUp_eq (m : Z) (s : CFSet) (ev : CGEvent) :
  OnKeyEvent m s kCGEventKeyUp ev =
  let rec := {| nKeyCode := key_of ev;
                nLastKeyUpTimestamp := to_uint64 (timestamp ev) |} in
  match key_state s (key_of ev) with
  | None => (Pass, rec :: s)
  | Some T =>
      (if T =? 0 then Swallow else Pass,
       store_nLastKeyUpTimestamp s rec (to_uint64 (timestamp ev)))
  end.
Proof.
  rewrite <- (event_probe s ev (to_uint64 (timestamp ev))).
  unfold OnKeyEvent, key_of, CFSetAddValue.
  destruct (CFSetGetValue s _) as [old|]; simpl; [|reflexivity].
  now destruct (nLastKeyUpTimestamp old =? 0).
Qed.

Lemma key_state_after (m : Z) (s : CFSet) (ty : CGEventType) (ev : CGEvent) :
  key_state (snd (OnKeyEvent m s ty ev)) (key_of ev)
  = snd (key_step m (key_state s (key_of ev)) ty (to_uint64 (timestamp ev))).
Proof. now rewrite <- OnKeyEvent_key_step. Qed.

Lemma verdict_of (m : Z) (s : CFSet) (ty : CGEventType) (ev : CGEvent) :
  fst (OnKeyEvent m s ty ev)
  = fst (key_step m (key_state s (key_of ev)) ty (to_uint64 (timestamp ev))).
Proof. now rewrite <- OnKeyEvent_key_step. Qed.

(** Away from the two edges (a stored baseline 0, a sum [T + minInterval]
    beyond [2^64 - 1]) the code takes the step of the specification's
    table. *)
Lemma key_step_follows_table (m : Z) (st : Spec.KeyState) (ty : CGEventType)
    (ts : Z) :
  (forall T, st = Spec.Released T -> T <> 0 /\ 0 <= T + m < u64_modulus) ->
  key_step m (encode st) ty ts
  = (fst (Spec.evaluate m st ty ts), encode (snd (Spec.evaluate m st ty ts))).
Proof.
  intros HR. destruct ty, st as [| |T]; simpl; try reflexivity.
  - destruct (HR T eq_refl) as [NZ R].
    destruct (Z.eqb_spec T 0); [contradiction|].
    rewrite to_uint64_small by exact R.
    now destruct (ts <? T + m).
  - destruct (HR T eq_refl) as [NZ R].
    now destruct (Z.eqb_spec T 0).
Qed.

(** ** The press rule *)

(** The press rule holds while [T + minInterval] stays below [2^64]. *)
Lemma press_rule_unbounded_no_wrap (m : Z) (s : CFSet) (ev : CGEvent) (T : Z) :
  0 <= T + m < u64_modulus -> press_rule_unbounded m s ev T.
Proof.
  intros R HT NP U. rewrite OnKeyEvent_KeyDown_eq, HT.
  unfold PRESSED in *.
  destruct (Z.eqb_spec T 0) as [|_]; [contradiction|].
  rewrite (to_uint64_small (T + m)), (to_uint64_small (timestamp ev)) by assumption.
  split; intros C.
  - destruct (Z.ltb_spec (timestamp ev) (T + m)); [lia | reflexivity].
  - destruct (Z.ltb_spec (timestamp ev) (T + m)); [|lia]. simpl. split; [reflexivity|].
    apply (key_state_store_same s (mkKeyData (key_of ev) _) 0).
    simpl. congruence.
Qed.

(** C1 (as amended): for a key with a recorded baseline [T] other than the
    PRESSED sentinel, with [T + minInterval] computed in unsigned 64-bit
    arithmetic (modulo [2^64]), a press whose timestamp is at least that sum
    is passed and leaves the key set unchanged, and a press whose timestamp
    is below that sum is swallowed and sets the key's state to PRESSED. *)
Theorem press_on_baseline (m : Z) (s : CFSet) (ev : CGEvent) (T : Z) :
  key_state s (key_of ev) = Some T ->
  T <> PRESSED ->
  is_uint64 (timestamp ev) ->
  (to_uint64 (T + m) <= timestamp ev ->
   OnKeyEvent m s kCGEventKeyDown ev = (Pass, s)) /\
  (timestamp ev < to_uint64 (T + m) ->
   fst (OnKeyEvent m s kCGEventKeyDown ev) = Swallow /\
   key_state (snd (OnKeyEvent m s kCGEventKeyDown ev)) (key_of ev)
     = Some PRESSED).
Proof.
  intros HT NP U. rewrite OnKeyEvent_KeyDown_eq, HT.
  unfold PRESSED in *.
  destruct (Z.eqb_spec T 0) as [|_]; [contradiction|].
  rewrite (to_uint64_small (timestamp ev)) by assumption.
  split; intros C.
  - destruct (Z.ltb_spec (timestamp ev) (to_uint64 (T + m))); [lia | reflexivity].
  - destruct (Z.ltb_spec (timestamp ev) (to_uint64 (T + m))); [|lia].
    simpl. split; [reflexivity|].
    apply (key_state_store_same s (mkKeyData (key_of ev) _) 0).
    simpl. congruence.
Qed.

Lemma press_on_baseline_witness :
  OnKeyEvent 20000000 [mkKeyData 7 100] kCGEventKeyDown (mkCGEvent 7 20000100)
    = (Pass, [mkKeyData 7 100]) /\
  fst (OnKeyEvent 20000000 [mkKeyData 7 100] kCGEventKeyDown
         (mkCGEvent 7 20000099)) = Swallow.
Proof.
  split.
  - apply (press_on_baseline 20000000 [mkKeyData 7 100]
             (mkCGEvent 7 20000100) 100);
      [reflexivity | discriminate | u64_range | vm_compute; discriminate].
  - apply (press_on_baseline 20000000 [mkKeyData 7 100]
             (mkCGEvent 7 20000099) 100);
      [reflexivity | discriminate | u64_range | vm_compute; reflexivity].
Defined.

(** C1 (as stated) fails where [T + minInterval] exceeds [2^64 - 1]: with the
    default threshold, a press at the very instant of a release recorded at
    [2^64 - 1] is passed although it comes less than [minInterval] after it. *)
Lemma press_rule_unbounded_fails :
  key_state late_set (key_of late_press) = Some late_baseline /\
  late_baseline <> PRESSED /\
  is_uint64 (timestamp late_press) /\
  timestamp late_press < late_baseline + main_config None /\
  OnKeyEvent (main_config None) late_set kCGEventKeyDown late_press
    = (Pass, late_set) /\
  ~ press_rule_unbounded (main_config None) late_set late_press late_baseline.
Proof.
  assert (E : OnKeyEvent (main_config None) late_set kCGEventKeyDown late_press
              = (Pass, late_set)) by (vm_compute; reflexivity).
  assert (U : is_uint64 (timestamp late_press)) by u64_range.
  assert (L : timestamp late_press < late_baseline + main_config None)
    by (vm_compute; reflexivity).
  repeat split; try assumption; try (vm_compute; congruence).
  intros R. destruct R as [_ R]; try assumption;
    try (vm_compute; congruence).
  destruct (R L) as [V _]. rewrite E in V. discriminate.
Qed.

(** ** The PRESSED state *)

(** C2: for a key whose state is the PRESSED sentinel, a press is swallowed
    and leaves the key set unchanged, and a release is swallowed and sets the
    key's state to the release's timestamp. *)
Theorem pressed_state (m : Z) (s : CFSet) (ev : CGEvent) :
  key_state s (key_of ev) = Some PRESSED ->
  is_uint64 (timestamp ev) ->
  OnKeyEvent m s kCGEventKeyDown ev = (Swallow, s) /\
  fst (OnKeyEvent m s kCGEventKeyUp ev) = Swallow /\
  key_state (snd (OnKeyEvent m s kCGEventKeyUp ev)) (key_of ev)
    = Some (timestamp ev).
Proof.
  intros HP U. split; [|split].
  - now rewrite OnKeyEvent_KeyDown_eq, HP.
  - now rewrite verdict_of, HP.
  - rewrite key_state_after, HP. simpl. now rewrite to_uint64_small.
Qed.

Lemma pressed_state_witness :
  OnKeyEvent 20000000 [mkKeyData 7 0] kCGEventKeyDown (mkCGEvent 7 8000000)
    = (Swallow, [mkKeyData 7 0]) /\
  fst (OnKeyEvent 20000000 [mkKeyData 7 0] kCGEventKeyUp (mkCGEvent 7 8000000))
    = Swallow /\
  key_state
    (snd (OnKeyEvent 20000000 [mkKeyData 7 0] kCGEventKeyUp (mkCGEvent 7 8000000)))
    (key_of (mkCGEvent 7 8000000)) = Some 8000000.
Proof.
  apply (pressed_state 20000000 [mkKeyData 7 0] (mkCGEvent 7 8000000));
    [reflexivity | u64_range].
Defined.

(** ** Keys without a record *)

(** C3: for a key with no record, a press is passed and creates no record
    (the key set is unchanged), and a release is passed and creates a record
    whose timestamp is that of the release. *)
Theorem absent_state (m : Z) (s : CFSet) (ev : CGEvent) :
  key_state s (key_of ev) = None ->
  is_uint64 (timestamp ev) ->
  OnKeyEvent m s kCGEventKeyDown ev = (Pass, s) /\
  OnKeyEvent m s kCGEventKeyUp ev
    = (Pass, {| nKeyCode := key_of ev;
                nLastKeyUpTimestamp := timestamp ev |} :: s) /\
  key_state (snd (OnKeyEvent m s kCGEventKeyUp ev)) (key_of ev)
    = Some (timestamp ev).
Proof.
  intros HN U. split; [|split].
  - now rewrite OnKeyEvent_KeyDown_eq, HN.
  - rewrite OnKeyEvent_KeyUp_eq, HN. simpl. now rewrite to_uint64_small.
  - rewrite key_state_after, HN. simpl. now rewrite to_uint64_small.
Qed.

Lemma absent_state_witness :
  OnKeyEvent 20000000 [mkKeyData 7 100] kCGEventKeyDown (mkCGEvent 9 5)
    = (Pass, [mkKeyData 7 100]) /\
  OnKeyEvent 20000000 [mkKeyData 7 100] kCGEventKeyUp (mkCGEvent 9 5)
    = (Pass, {| nKeyCode := key_of (mkCGEvent 9 5);
                nLastKeyUpTimestamp := 5 |} :: [mkKeyData 7 100]) /\
  key_state
    (snd (OnKeyEvent 20000000 [mkKeyData 7 100] kCGEventKeyUp (mkCGEvent 9 5)))
    (key_of (mkCGEvent 9 5)) = Some 5.
Proof.
  apply (absent_state 20000000 [mkKeyData 7 100] (mkCGEvent 9 5));
    [reflexivity | u64_range].
Defined.

(** ** Releases *)

(** A release is swallowed exactly when the key's state is PRESSED; the
    timestamps play no part. *)
Lemma release_swallowed_iff (m : Z) (s : CFSet) (ev : CGEvent) :
  fst (OnKeyEvent m s kCGEventKeyUp ev) = Swallow
  <-> key_state s (key_of ev) = Some PRESSED.
Proof.
  rewrite verdict_of. unfold PRESSED.
  destruct (key_state s (key_of ev)) as [T|]; simpl.
  - destruct (Z.eqb_spec T 0); simpl; split; congruence.
  - split; discriminate.
Qed.

(** C4: for a key with a recorded baseline [T] other than the PRESSED
    sentinel, a release is passed and sets the key's state to the release's
    timestamp, whatever [T], the threshold and the timestamp are; and a
    release, in any state, is swallowed only when the prior state is
    PRESSED. *)
Theorem release_on_baseline (m : Z) (s : CFSet) (ev : CGEvent) (T : Z) :
  key_state s (key_of ev) = Some T ->
  T <> PRESSED ->
  is_uint64 (timestamp ev) ->
  fst (OnKeyEvent m s kCGEventKeyUp ev) = Pass /\
  key_state (snd (OnKeyEvent m s kCGEventKeyUp ev)) (key_of ev)
    = Some (timestamp ev) /\
  (forall (m' : Z) (s' : CFSet) (ev' : CGEvent),
     fst (OnKeyEvent m' s' kCGEventKeyUp ev') = Swallow ->
     key_state s' (key_of ev') = Some PRESSED).
Proof.
  intros HT NP U. unfold PRESSED in NP. split; [|split].
  - rewrite verdict_of, HT. simpl.
    now destruct (Z.eqb_spec T 0).
  - rewrite key_state_after, HT. simpl.
    rewrite to_uint64_small by assumption.
    now destruct (T =? 0).
  - intros m' s' ev'. apply release_swallowed_iff.
Qed.

Lemma release_on_baseline_witness :
  fst (OnKeyEvent 20000000 [mkKeyData 7 100] kCGEventKeyUp (mkCGEvent 7 101))
    = Pass /\
  key_state
    (snd (OnKeyEvent 20000000 [mkKeyData 7 100] kCGEventKeyUp (mkCGEvent 7 101)))
    (key_of (mkCGEvent 7 101)) = Some 101.
Proof.
  destruct (release_on_baseline 20000000 [mkKeyData 7 100] (mkCGEvent 7 101) 100)
    as [V [S _]]; [reflexivity | discriminate | u64_range |].
  exact (conj V S).
Defined.

(** ** The five-event scenario *)

(** On deliveries that all concern key [k], the trace is that of
    [key_step]. *)
Lemma trace_key_trace (m : Z) (k : Z) (events : list (CGEventType * CGEvent)) :
  Forall (fun e => key_of (snd e) = k) events ->
  forall s : CFSet,
  trace m s k events
  = key_trace m (key_state s k)
      (map (fun e => (fst e, to_uint64 (timestamp (snd e)))) events).
Proof.
  induction 1 as [|[ty ev] rest K _ IH]; intros s; [reflexivity|].
  simpl in K. subst k. simpl.
  pose proof (OnKeyEvent_key_step m s ty ev) as E.
  destruct (OnKeyEvent m s ty ev) as [v s1]. simpl in E.
  rewrite <- E. simpl. now rewrite IH.
Qed.

(** C5: with a threshold of 20 and the same unit for the timestamps, the
    deliveries Release(A,0), Press(A,5), Release(A,8), Press(A,40),
    Release(A,60) to an empty key set get the verdicts Pass, Swallow,
    Swallow, Pass, Pass, and A's stored state after each is 0, PRESSED, 8, 8
    and 60.  The same holds in nanoseconds with the threshold that [main]
    derives from the argument 20. *)
Theorem scenario_bounce (A : Z) :
  trace 20 [] (to_uint64 A)
    [release A 0; press A 5; release A 8; press A 40; release A 60]
  = [(Pass, Some 0); (Swallow, Some PRESSED); (Swallow, Some 8);
     (Pass, Some 8); (Pass, Some 60)]
  /\
  trace (main_config (Some 20)) [] (to_uint64 A)
    [release A 0; press A 5000000; release A 8000000;
     press A 40000000; release A 60000000]
  = [(Pass, Some 0); (Swallow, Some PRESSED); (Swallow, Some 8000000);
     (Pass, Some 8000000); (Pass, Some 60000000)].
Proof.
  split.
  - rewrite trace_key_trace by (repeat constructor).
    vm_compute. reflexivity.
  - rewrite trace_key_trace by (repeat constructor).
    vm_compute. reflexivity.
Qed.

(** ** Runs *)

Lemma run_cons (m : Z) (s : CFSet) (ty : CGEventType) (ev : CGEvent)
    (rest : list (CGEventType * CGEvent)) :
  run m s ((ty, ev) :: rest)
  = (fst (OnKeyEvent m s ty ev) :: fst (run m (snd (OnKeyEvent m s ty ev)) rest),
     snd (run m (snd (OnKeyEvent m s ty ev)) rest)).
Proof.
  simpl. destruct (OnKeyEvent m s ty ev) as [v s1]. simpl.
  now destruct (run m s1 rest).
Qed.

Lemma run_app_snd (m : Z) (e1 e2 : list (CGEventType * CGEvent)) :
  forall s, snd (run m s (e1 ++ e2)) = snd (run m (snd (run m s e1)) e2).
Proof.
  induction e1 as [|[ty ev] e1 IH]; intros s; [reflexivity|].
  rewrite <- app_comm_cons, !run_cons. simpl. apply IH.
Qed.

Lemma run_length (m : Z) (events : list (CGEventType * CGEvent)) :
  forall s, length (fst (run m s events)) = length events.
Proof.
  induction events as [|[ty ev] rest IH]; intros s; [reflexivity|].
  rewrite run_cons. simpl. now rewrite IH.
Qed.

(** ** The key set along a run *)

Lemma OnKeyEvent_NoDup (m : Z) (s : CFSet) (ty : CGEventType) (ev : CGEvent) :
  NoDup (map nKeyCode s) -> NoDup (map nKeyCode (snd (OnKeyEvent m s ty ev))).
Proof.
  intros ND. rewrite OnKeyEvent_keys.
  destruct ty; try assumption.
  destruct (key_state s (key_of ev)) eqn:K; try assumption.
  constructor; [|assumption]. now apply key_state_None.
Qed.

Lemma OnKeyEvent_In (m : Z) (s : CFSet) (ty : CGEventType) (ev : CGEvent)
    (k : Z) :
  In k (map nKeyCode (snd (OnKeyEvent m s ty ev)))
  <-> In k (map nKeyCode s) \/ (ty = kCGEventKeyUp /\ key_of ev = k).
Proof.
  rewrite OnKeyEvent_keys.
  destruct ty; try (split; [now left | intros [H|[H _]]; [exact H | discriminate]]).
  destruct (key_state s (key_of ev)) eqn:K; simpl.
  - split; [now left|]. intros [H|[_ H]]; [exact H|]. subst k.
    destruct (in_dec Z.eq_dec (key_of ev) (map nKeyCode s)) as [I|I]; [exact I|].
    apply key_state_None in I. congruence.
  - split.
    + intros [H|H]; [right; now split | now left].
    + intros [H|[_ H]]; [now right | now left].
Qed.

Lemma run_NoDup (m : Z) (events : list (CGEventType * CGEvent)) :
  forall s, NoDup (map nKeyCode s) ->
            NoDup (map nKeyCode (snd (run m s events))).
Proof.
  induction events as [|[ty ev] rest IH]; intros s ND; [exact ND|].
  rewrite run_cons. simpl. apply IH. now apply OnKeyEvent_NoDup.
Qed.

Lemma run_In (m : Z) (events : list (CGEventType * CGEvent)) (k : Z) :
  forall s,
  In k (map nKeyCode (snd (run m s events)))
  <-> In k (map nKeyCode s)
      \/ exists ev, In (kCGEventKeyUp, ev) events /\ key_of ev = k.
Proof.
  induction events as [|[ty ev] rest IH]; intros s.
  - simpl. split; [now left | intros [H|[ev [[] _]]]; exact H].
  - rewrite run_cons. simpl snd. rewrite IH, OnKeyEvent_In. split.
    + intros [[H|[-> H]]|[ev' [I H]]].
      * now left.
      * right. exists ev. split; [now left | exact H].
      * right. exists ev'. split; [now right | exact H].
    + intros [H|[ev' [[I|I] H]]].
      * left. now left.
      * injection I as -> ->. left. right. now split.
      * right. exists ev'. now split.
Qed.

Lemma key_state_Some_In (s : CFSet) (k : Z) :
  (exists T, key_state s k = Some T) <-> In k (map nKeyCode s).
Proof.
  pose proof (key_state_None s k) as N.
  destruct (key_state s k) as [T|].
  - split; [|intros _; now exists T].
    intros _. destruct (in_dec Z.eq_dec k (map nKeyCode s)) as [I|I]; [exact I|].
    apply N in I. discriminate.
  - split; [intros [T E]; discriminate|].
    intros I. exfalso. now apply (proj1 N).
Qed.

(** C6: after any finite sequence of deliveries to the initially empty key
    set, no two records carry the same key code; key [k] has a record exactly
    when some release of [k] is among the deliveries; and a key that has a
    record still has one after any further deliveries. *)
Theorem key_set_invariant (m : Z) (events : list (CGEventType * CGEvent)) :
  NoDup (map nKeyCode (snd (run m [] events))) /\
  (forall k : Z,
     (exists T, key_state (snd (run m [] events)) k = Some T)
     <-> exists ev, In (kCGEventKeyUp, ev) events /\ key_of ev = k) /\
  (forall (k : Z) (more : list (CGEventType * CGEvent)),
     (exists T, key_state (snd (run m [] events)) k = Some T) ->
     exists T', key_state (snd (run m [] (events ++ more))) k = Some T').
Proof.
  split; [|split].
  - apply run_NoDup. constructor.
  - intros k. rewrite key_state_Some_In, run_In. simpl. tauto.
  - intros k more. rewrite !key_state_Some_In, run_app_snd.
    intros I. apply run_In. now left.
Qed.

Lemma key_set_invariant_witness :
  NoDup (map nKeyCode (snd (run 20 [] [release 7 0; press 7 5; release 9 6]))) /\
  (exists T,
     key_state (snd (run 20 [] ([release 7 0; press 7 5; release 9 6]
                                 ++ [press 9 7; release 7 9]))) 7 = Some T).
Proof.
  destruct (key_set_invariant 20 [release 7 0; press 7 5; release 9 6])
    as [ND [_ K]].
  split; [exact ND|].
  apply K. exists 0. reflexivity.
Defined.

(** ** Independence of keys *)

(** The verdicts given to key [k] and its final state are those obtained by
    delivering the events of [k] alone. *)
Lemma run_events_of (m : Z) (k : Z) (events : list (CGEventType * CGEvent)) :
  forall s1 s2 : CFSet,
  key_state s1 k = key_state s2 k ->
  verdicts_for k events (fst (run m s1 events))
    = fst (run m s2 (events_of k events)) /\
  key_state (snd (run m s1 events)) k
    = key_state (snd (run m s2 (events_of k events))) k.
Proof.
  induction events as [|[ty ev] rest IH]; intros s1 s2 E.
  - split; [reflexivity | exact E].
  - rewrite run_cons. unfold verdicts_for, events_of. simpl.
    destruct (Z.eqb_spec (key_of ev) k) as [K|K].
    + rewrite run_cons. simpl.
      assert (E' : key_state (snd (OnKeyEvent m s1 ty ev)) k
                   = key_state (snd (OnKeyEvent m s2 ty ev)) k).
      { subst k. now rewrite !key_state_after, E. }
      destruct (IH _ _ E') as [V S]. split; [|exact S].
      f_equal; [|exact V].
      subst k. now rewrite !verdict_of, E.
    + apply IH. rewrite OnKeyEvent_frame; [exact E | congruence].
Qed.

(** C7: for distinct keys [A] and [B], a delivery for [A] leaves the state of
    every other key unchanged, and the verdicts given to [B]'s events and
    [B]'s resulting state are determined by [B]'s own events: they are those
    of delivering [B]'s events alone, and two delivery sequences with the
    same events of [B] agree on them. *)
Theorem keys_independent (m : Z) (A B : Z) :
  A <> B ->
  (forall (s : CFSet) (ty : CGEventType) (ev : CGEvent),
     key_of ev = A ->
     key_state (snd (OnKeyEvent m s ty ev)) B = key_state s B) /\
  (forall events : list (CGEventType * CGEvent),
     verdicts_for B events (fst (run m [] events))
       = fst (run m [] (events_of B events)) /\
     key_state (snd (run m [] events)) B
       = key_state (snd (run m [] (events_of B events))) B) /\
  (forall e1 e2 : list (CGEventType * CGEvent),
     events_of B e1 = events_of B e2 ->
     verdicts_for B e1 (fst (run m [] e1))
       = verdicts_for B e2 (fst (run m [] e2)) /\
     key_state (snd (run m [] e1)) B = key_state (snd (run m [] e2)) B).
Proof.
  intros N. split; [|split].
  - intros s ty ev K. apply OnKeyEvent_frame. congruence.
  - intros events. now apply run_events_of.
  - intros e1 e2 E.
    destruct (run_events_of m B e1 [] [] eq_refl) as [V1 S1].
    destruct (run_events_of m B e2 [] [] eq_refl) as [V2 S2].
    rewrite V1, V2, S1, S2, E. now split.
Qed.

Lemma keys_independent_witness :
  7 <> 9 /\
  key_state (snd (OnKeyEvent 20 [mkKeyData 9 3; mkKeyData 7 0]
                    kCGEventKeyUp (mkCGEvent 7 50))) 9
    = key_state [mkKeyData 9 3; mkKeyData 7 0] 9 /\
  verdicts_for 9 [release 7 0; release 9 1; press 7 2; press 9 3]
    (fst (run 20 [] [release 7 0; release 9 1; press 7 2; press 9 3]))
    = verdicts_for 9 [release 9 1; press 9 3; press 7 90]
        (fst (run 20 [] [release 9 1; press 9 3; press 7 90])).
Proof.
  assert (N : 7 <> 9) by discriminate.
  destruct (keys_independent 20 7 9 N) as [F [_ P]].
  split; [exact N|]. split.
  - apply F. reflexivity.
  - apply P. reflexivity.
Defined.

(** ** Start-up configuration *)

Lemma main_config_default :
  main_config None = 20000000 /\ main_config (Some 0) = 20000000 /\
  main_config (Some 20) = 20000000.
Proof. repeat split; vm_compute; reflexivity. Qed.

Lemma main_config_ms (ms : Z) :
  is_uint64 ms -> ms <> 0 -> main_config (Some ms) = to_uint64 (ms * 1000000).
Proof.
  intros U N. unfold main_config. rewrite (to_uint64_small ms U).
  now destruct (Z.eqb_spec ms 0).
Qed.

(** C8: started with the argument 0, or with no argument, the daemon gives
    on every sequence of deliveries the verdicts and the key set it gives
    when started with the argument 20; and a non-zero argument [ms] makes the
    engine compare against [ms * 1000000] (nanoseconds, reduced modulo
    [2^64]). *)
Theorem config_zero_is_default (events : list (CGEventType * CGEvent)) (ms : Z) :
  is_uint64 ms -> ms <> 0 ->
  daemon (Some 0) events = daemon (Some 20) events /\
  daemon None events = daemon (Some 20) events /\
  daemon (Some 20) events = run (20 * 1000000) [] events /\
  daemon (Some ms) events = run (to_uint64 (ms * 1000000)) [] events.
Proof.
  intros U N. unfold daemon.
  destruct main_config_default as [E0 [E1 E2]].
  rewrite E0, E1, E2, (main_config_ms ms U N). repeat split.
Qed.

Lemma config_zero_is_default_witness :
  daemon (Some 0) [release 7 1; press 7 15000000; press 7 30000000]
    = daemon (Some 20) [release 7 1; press 7 15000000; press 7 30000000] /\
  daemon (Some 35) [release 7 1; press 7 15000000; press 7 30000000]
    = run (to_uint64 (35 * 1000000)) []
        [release 7 1; press 7 15000000; press 7 30000000].
Proof.
  assert (U : is_uint64 35) by u64_range.
  assert (N : 35 <> 0) by discriminate.
  destruct (config_zero_is_default
              [release 7 1; press 7 15000000; press 7 30000000] 35 U N)
    as [Z0 [_ [_ M]]].
  exact (conj Z0 M).
Defined.

(** ** The zero timestamp *)

Lemma release_zero_on_empty (m A : Z) :
  OnKeyEvent m [] kCGEventKeyUp (mkCGEvent A 0)
  = (Pass, [mkKeyData (to_uint64 A) PRESSED]).
Proof. reflexivity. Qed.

Lemma press_after_release_zero (m A t : Z) :
  OnKeyEvent m [mkKeyData (to_uint64 A) PRESSED] kCGEventKeyDown (mkCGEvent A t)
  = (Swallow, [mkKeyData (to_uint64 A) PRESSED]).
Proof.
  rewrite OnKeyEvent_KeyDown_eq.
  unfold key_state, key_of. simpl. unfold IsKeyDataEqual. simpl.
  now rewrite Z.eqb_refl.
Qed.

(** C9: a release carrying the timestamp 0 stores the PRESSED sentinel: after
    Release(A,0) on an empty key set the state of [A] is PRESSED, and a
    following press of [A] at any time [t >= 0 + minInterval] is swallowed,
    whereas the state-machine table, from the baseline 0, passes it. *)
Theorem zero_timestamp_is_sentinel (m A t : Z) :
  is_uint64 t ->
  0 + m <= t ->
  In (release A 0) [release A 0; press A t] /\
  key_state (snd (run m [] [release A 0])) (to_uint64 A) = Some PRESSED /\
  fst (run m [] [release A 0; press A t]) = [Pass; Swallow] /\
  fst (Spec.run m Spec.Absent [(kCGEventKeyUp, 0); (kCGEventKeyDown, t)])
    = [Pass; Pass].
Proof.
  intros U L. split; [now left|]. split; [|split].
  - unfold release. rewrite run_cons, release_zero_on_empty.
    cbn [run fst snd]. unfold key_state. simpl. unfold IsKeyDataEqual. simpl.
    now rewrite Z.eqb_refl.
  - unfold release, press.
    rewrite run_cons, release_zero_on_empty. cbn [fst snd].
    rewrite run_cons, press_after_release_zero. reflexivity.
  - cbn [Spec.run Spec.evaluate].
    destruct (Z.ltb_spec t (0 + m)); [lia | reflexivity].
Qed.

Lemma zero_timestamp_is_sentinel_witness :
  key_state (snd (run 20000000 [] [release 7 0])) (to_uint64 7) = Some PRESSED /\
  fst (run 20000000 [] [release 7 0; press 7 20000005]) = [Pass; Swallow] /\
  fst (Spec.run 20000000 Spec.Absent
         [(kCGEventKeyUp, 0); (kCGEventKeyDown, 20000005)]) = [Pass; Pass].
Proof.
  apply (zero_timestamp_is_sentinel 20000000 7 20000005);
    [u64_range | vm_compute; discriminate].
Defined.

(** ** Wrap-around of the press test *)

(** C10: the press test adds modulo [2^64].  For the threshold [main] derives
    from any argument (itself a product reduced modulo [2^64]) and, more
    generally, for any 64-bit threshold [m]: when [T + m >= 2^64] the sum the
    code compares against is [T + m - 2^64], and a press at the instant [T]
    itself, less than [m] after the baseline, is passed and leaves the key
    set unchanged. *)
Theorem press_test_wraps (m T : Z) :
  is_uint64 T ->
  is_uint64 m ->
  u64_modulus <= T + m ->
  (forall argv1 : option Z, is_uint64 (main_config argv1)) /\
  (forall ms : Z, is_uint64 ms -> ms <> 0 ->
     main_config (Some ms) = to_uint64 (ms * 1000000)) /\
  to_uint64 (T + m) = T + m - u64_modulus /\
  exists t : Z,
    is_uint64 t /\ T <= t < T + m /\
    forall (s : CFSet) (ev : CGEvent),
      key_state s (key_of ev) = Some T ->
      timestamp ev = t ->
      OnKeyEvent m s kCGEventKeyDown ev = (Pass, s).
Proof.
  intros UT Um W. unfold is_uint64 in *.
  assert (E : to_uint64 (T + m) = T + m - u64_modulus)
    by (apply to_uint64_wraps; lia).
  split; [exact main_config_is_uint64|]. split; [exact main_config_ms|].
  split; [exact E|].
  exists T. split; [exact UT|]. split; [lia|].
  intros s ev K Et.
  rewrite OnKeyEvent_KeyDown_eq, K, Et, E.
  rewrite (to_uint64_small T) by exact UT.
  destruct (Z.eqb_spec T 0); [lia|].
  destruct (Z.ltb_spec T (T + m - u64_modulus)); [lia | reflexivity].
Qed.

Lemma press_test_wraps_witness :
  to_uint64 (late_baseline + main_config (Some 20))
    = late_baseline + main_config (Some 20) - u64_modulus /\
  exists t : Z,
    is_uint64 t /\
    late_baseline <= t < late_baseline + main_config (Some 20) /\
    forall (s : CFSet) (ev : CGEvent),
      key_state s (key_of ev) = Some late_baseline ->
      timestamp ev = t ->
      OnKeyEvent (main_config (Some 20)) s kCGEventKeyDown ev = (Pass, s).
Proof.
  destruct (press_test_wraps (main_config (Some 20)) late_baseline)
    as [_ [_ R]]; [u64_range | u64_range | vm_compute; discriminate |].
  exact R.
Defined.

(** * Further properties of the engine *)

(** ** Input that is not bouncing *)

Lemma well_spaced_run (m : Z) (events : list (CGEventType * CGEvent)) :
  0 <= m ->
  Forall (fun e => is_uint64 (timestamp (snd e))) events ->
  Forall (fun e => fst e = kCGEventKeyUp -> timestamp (snd e) <> 0) events ->
  forall (s : CFSet) (last : Z -> option Z),
  (forall k, key_state s k = last k) ->
  (forall k T, last k = Some T -> T <> 0 /\ 0 <= T) ->
  well_spaced m last events = true ->
  fst (run m s events) = map (fun _ => Pass) events.
Proof.
  intros Hm HU HZ. induction events as [|[ty ev] rest IH];
    intros s last HS HL HW; [reflexivity|].
  inversion HU as [|? ? U HU']; subst. inversion HZ as [|? ? NZ HZ']; subst.
  simpl in U, NZ. specialize (IH HU' HZ').
  rewrite run_cons. cbn [fst map].
  pose proof (verdict_of m s ty ev) as V.
  pose proof (key_state_after m s ty ev) as K.
  rewrite (to_uint64_small _ U), HS in V, K.
  destruct ty; simpl in HW.
  - (* press *)
    apply andb_prop in HW. destruct HW as [HP HW].
    assert (E : key_step m (last (key_of ev)) kCGEventKeyDown (timestamp ev)
                = (Pass, last (key_of ev))).
    { simpl. destruct (last (key_of ev)) as [r|] eqn:L; [|reflexivity].
      destruct (HL _ _ L) as [Nr Pr]. apply Z.leb_le in HP.
      destruct (Z.eqb_spec r 0); [contradiction|].
      rewrite to_uint64_small by (unfold is_uint64 in *; lia).
      destruct (Z.ltb_spec (timestamp ev) (r + m)); [lia | reflexivity]. }
    rewrite E in V, K. cbn [fst snd] in V, K. rewrite V. f_equal.
    apply (IH _ last); try assumption.
    intros k. destruct (Z.eq_dec k (key_of ev)) as [->|N]; [exact K|].
    rewrite OnKeyEvent_frame by exact N. apply HS.
  - (* release *)
    assert (E : key_step m (last (key_of ev)) kCGEventKeyUp (timestamp ev)
                = (Pass, Some (timestamp ev))).
    { simpl. destruct (last (key_of ev)) as [r|] eqn:L; [|reflexivity].
      destruct (HL _ _ L) as [Nr _]. now destruct (Z.eqb_spec r 0). }
    rewrite E in V, K. cbn [fst snd] in V, K. rewrite V. f_equal.
    apply (IH _ (fun k => if key_of ev =? k then Some (timestamp ev) else last k));
      try assumption.
    + intros k. destruct (Z.eqb_spec (key_of ev) k) as [<-|N]; [exact K|].
      rewrite OnKeyEvent_frame by congruence. apply HS.
    + intros k T. destruct (Z.eqb_spec (key_of ev) k).
      * intros [= <-]. split; [now apply NZ | apply U].
      * apply HL.
  - (* any other type *)
    f_equal. apply (IH _ last); assumption.
Qed.

(** X1: when every timestamp is a 64-bit value, no release carries the
    timestamp 0 and every press comes at least [m >= 0] after the latest
    earlier release of its key, nothing is swallowed: every delivery to the
    initially empty key set is passed. *)
Theorem well_spaced_never_filtered (m : Z)
    (events : list (CGEventType * CGEvent)) :
  0 <= m ->
  Forall (fun e => is_uint64 (timestamp (snd e))) events ->
  Forall (fun e => fst e = kCGEventKeyUp -> timestamp (snd e) <> 0) events ->
  well_spaced m (fun _ => None) events = true ->
  fst (run m [] events) = map (fun _ => Pass) events.
Proof.
  intros Hm HU HZ HW.
  apply (well_spaced_run m events Hm HU HZ [] (fun _ => None)); try assumption.
  - reflexivity.
  - discriminate.
Qed.

Lemma well_spaced_never_filtered_witness :
  fst (run 20000000 []
         [press 7 5; release 7 9; press 9 10; press 7 20000009;
          release 9 11; release 7 20000100; press 9 20000011])
  = [Pass; Pass; Pass; Pass; Pass; Pass; Pass].
Proof.
  apply (well_spaced_never_filtered 20000000
           [press 7 5; release 7 9; press 9 10; press 7 20000009;
            release 9 11; release 7 20000100; press 9 20000011]).
  - discriminate.
  - repeat constructor; vm_compute; discriminate.
  - repeat constructor; simpl; discriminate.
  - vm_compute. reflexivity.
Defined.

(** ** Pairing of what is handed on *)

Lemma events_of_cons (k : Z) (ty : CGEventType) (ev : CGEvent)
    (rest : list (CGEventType * CGEvent)) :
  events_of k ((ty, ev) :: rest)
  = if key_of ev =? k then (ty, ev) :: events_of k rest else events_of k rest.
Proof. reflexivity. Qed.

Lemma passed_of_cons (k : Z) (ty : CGEventType) (ev : CGEvent)
    (rest : list (CGEventType * CGEvent)) (v : Verdict) (vs : list Verdict) :
  passed_of k ((ty, ev) :: rest) (v :: vs)
  = if (key_of ev =? k) && is_pass v then ty :: passed_of k rest vs
    else passed_of k rest vs.
Proof.
  unfold passed_of. simpl.
  now destruct ((key_of ev =? k) && is_pass v).
Qed.

Lemma alternating_tail (x : CGEventType) (l : list CGEventType) :
  alternating (x :: l) = true ->
  alternating l = true /\
  match x with
  | kCGEventKeyDown => hd kCGEventKeyUp l = kCGEventKeyUp
  | kCGEventKeyUp => hd kCGEventKeyDown l = kCGEventKeyDown
  | kCGEventOther => False
  end.
Proof.
  simpl. intros H. apply andb_prop in H. destruct H as [H A].
  split; [exact A|].
  destruct x, l as [|[] l]; simpl in *; congruence.
Qed.

Lemma alternating_press (out : list CGEventType) :
  alternating out = true -> hd kCGEventKeyUp out = kCGEventKeyUp ->
  alternating (kCGEventKeyDown :: out) = true.
Proof.
  destruct out as [|y out]; [reflexivity|].
  simpl hd. intros A ->. simpl in *. exact A.
Qed.

Lemma alternating_release (out : list CGEventType) :
  alternating out = true -> hd kCGEventKeyDown out = kCGEventKeyDown ->
  alternating (kCGEventKeyUp :: out) = true.
Proof.
  destruct out as [|y out]; [reflexivity|].
  simpl hd. intros A ->. simpl in *. exact A.
Qed.

(** The step of the event's own key, with the verdict and the next state
    named. *)
Lemma own_step (m : Z) (s : CFSet) (ty : CGEventType) (ev : CGEvent) :
  key_step m (key_state s (key_of ev)) ty (to_uint64 (timestamp ev))
  = (fst (OnKeyEvent m s ty ev),
     key_state (snd (OnKeyEvent m s ty ev)) (key_of ev)).
Proof. symmetry. apply OnKeyEvent_key_step. Qed.

Lemma key_step_release_clean (m : Z) (st : option Z) (ts : Z) :
  st <> Some 0 -> key_step m st kCGEventKeyUp ts = (Pass, Some ts).
Proof.
  intros C. destruct st as [T|]; [|reflexivity]. cbn [key_step].
  destruct (Z.eqb_spec T 0); [congruence | reflexivity].
Qed.

Lemma key_step_release_held (m : Z) (ts : Z) :
  key_step m (Some 0) kCGEventKeyUp ts = (Swallow, Some ts).
Proof. reflexivity. Qed.

Lemma key_step_press_held (m : Z) (ts : Z) :
  key_step m (Some 0) kCGEventKeyDown ts = (Swallow, Some 0).
Proof. reflexivity. Qed.

Lemma key_step_press_clean (m : Z) (st : option Z) (ts : Z) :
  st <> Some 0 ->
  key_step m st kCGEventKeyDown ts = (Pass, st) \/
  key_step m st kCGEventKeyDown ts = (Swallow, Some 0).
Proof.
  intros C. destruct st as [T|]; [|now left]. cbn [key_step].
  destruct (Z.eqb_spec T 0); [congruence|].
  destruct (ts <? to_uint64 (T + m)); [now right | now left].
Qed.

Lemma paired_run (m : Z) (k : Z) (events : list (CGEventType * CGEvent)) :
  Forall (fun e => fst e = kCGEventKeyUp -> to_uint64 (timestamp (snd e)) <> 0)
    events ->
  alternating (map fst (events_of k events)) = true ->
  forall s : CFSet,
  (key_state s k <> Some 0 ->
   alternating (passed_of k events (fst (run m s events))) = true /\
   match map fst (events_of k events) with
   | [] => passed_of k events (fst (run m s events)) = []
   | x :: _ => hd x (passed_of k events (fst (run m s events))) = x
   end) /\
  (key_state s k = Some 0 ->
   hd kCGEventKeyUp (map fst (events_of k events)) = kCGEventKeyUp ->
   alternating (passed_of k events (fst (run m s events))) = true /\
   hd kCGEventKeyDown (passed_of k events (fst (run m s events)))
     = kCGEventKeyDown).
Proof.
  intros HZ. induction events as [|[ty ev] rest IH]; intros HA s.
  - split; intros; split; reflexivity.
  - inversion HZ as [|? ? NZ HZ']; subst. simpl in NZ. specialize (IH HZ').
    rewrite run_cons. cbn [fst]. rewrite passed_of_cons.
    rewrite events_of_cons in *.
    pose proof (own_step m s ty ev) as E.
    set (v := fst (OnKeyEvent m s ty ev)) in *.
    set (s1 := snd (OnKeyEvent m s ty ev)) in *.
    destruct (Z.eqb_spec (key_of ev) k) as [K|K].
    + (* an event of [k] *)
      subst k. cbn [map] in HA |- *. cbn [andb].
      apply alternating_tail in HA. destruct HA as [HA HH].
      destruct (IH HA s1) as [IHc IHd].
      assert (Empty : map fst (events_of (key_of ev) rest) = [] ->
                      key_state s1 (key_of ev) <> Some 0 ->
                      passed_of (key_of ev) rest (fst (run m s1 rest)) = []).
      { intros En C. destruct (IHc C) as [_ R]. now rewrite En in R. }
      assert (Head : forall x,
                hd x (map fst (events_of (key_of ev) rest)) = x ->
                key_state s1 (key_of ev) <> Some 0 ->
                hd x (passed_of (key_of ev) rest (fst (run m s1 rest))) = x).
      { intros x Hx C. destruct (IHc C) as [_ R].
        destruct (map fst (events_of (key_of ev) rest)) as [|y l].
        - now rewrite R.
        - simpl in Hx. now subst y. }
      split.
      * (* the key is not held *)
        intros C. destruct ty; [| |contradiction].
        -- destruct (key_step_press_clean m _ (to_uint64 (timestamp ev)) C)
             as [P|P]; rewrite P in E; injection E as Ev Es;
             rewrite <- Ev; cbn [is_pass].
           ++ assert (C1 : key_state s1 (key_of ev) <> Some 0) by congruence.
              split; [|reflexivity].
              apply alternating_press; [now apply IHc | now apply Head].
           ++ destruct IHd as [A H]; [congruence | exact HH |].
              split; [exact A | exact H].
        -- rewrite (key_step_release_clean m _ _ C) in E.
           injection E as Ev Es. rewrite <- Ev. cbn [is_pass].
           assert (C1 : key_state s1 (key_of ev) <> Some 0).
           { rewrite <- Es. intros [= F]. now apply NZ. }
           split; [|reflexivity].
           apply alternating_release; [now apply IHc | now apply Head].
      * (* the key is held *)
        intros D Hup. simpl in Hup. subst ty.
        rewrite D, key_step_release_held in E. injection E as Ev Es.
        rewrite <- Ev. cbn [is_pass].
        assert (C1 : key_state s1 (key_of ev) <> Some 0).
        { rewrite <- Es. intros [= F]. now apply NZ. }
        split; [now apply IHc | now apply Head].
    + (* an event of another key *)
      cbn [andb].
      assert (F : key_state s1 k = key_state s k)
        by (apply OnKeyEvent_frame; congruence).
      specialize (IH HA s1). rewrite F in IH. exact IH.
Qed.

(** X2: when the events of key [k] are presses and releases in turn and no
    release carries a timestamp that is 0 modulo [2^64], the events of [k]
    that are handed on are again presses and releases in turn, and they start
    with the same kind of event as the input does: a swallowed press takes
    its release with it. *)
Theorem passed_events_stay_paired (m : Z) (k : Z)
    (events : list (CGEventType * CGEvent)) :
  Forall (fun e => fst e = kCGEventKeyUp -> to_uint64 (timestamp (snd e)) <> 0)
    events ->
  alternating (map fst (events_of k events)) = true ->
  alternating (passed_of k events (fst (run m [] events))) = true /\
  match map fst (events_of k events) with
  | [] => passed_of k events (fst (run m [] events)) = []
  | x :: _ => hd x (passed_of k events (fst (run m [] events))) = x
  end.
Proof.
  intros HZ HA. apply (paired_run m k events HZ HA []). discriminate.
Qed.

Lemma passed_events_stay_paired_witness :
  alternating
    (passed_of 7
       [release 7 1; press 9 2; press 7 3; release 7 4; press 7 30000000;
        release 9 30000001; release 7 30000002]
       (fst (run 20000000 []
               [release 7 1; press 9 2; press 7 3; release 7 4;
                press 7 30000000; release 9 30000001; release 7 30000002])))
  = true.
Proof.
  apply (passed_events_stay_paired 20000000 7
           [release 7 1; press 9 2; press 7 3; release 7 4; press 7 30000000;
            release 9 30000001; release 7 30000002]).
  - repeat constructor; vm_compute; discriminate.
  - vm_compute. reflexivity.
Defined.

(** ** Swallowed presses and releases *)

Lemma swallowed_presses_cons (k : Z) (ty : CGEventType) (ev : CGEvent)
    (rest : list (CGEventType * CGEvent)) (v : Verdict) (vs : list Verdict) :
  swallowed_presses k ((ty, ev) :: rest) (v :: vs)
  = Nat.add (if is_press (ty, ev) && (key_of ev =? k) && negb (is_pass v)
             then 1%nat else 0%nat)
      (swallowed_presses k rest vs).
Proof.
  unfold swallowed_presses. simpl combine. simpl filter. cbn [fst snd].
  now destruct (is_press (ty, ev) && (key_of ev =? k) && negb (is_pass v)).
Qed.

Lemma swallowed_releases_cons (k : Z) (ty : CGEventType) (ev : CGEvent)
    (rest : list (CGEventType * CGEvent)) (v : Verdict) (vs : list Verdict) :
  swallowed_releases k ((ty, ev) :: rest) (v :: vs)
  = Nat.add (if is_release (ty, ev) && (key_of ev =? k) && negb (is_pass v)
             then 1%nat else 0%nat)
      (swallowed_releases k rest vs).
Proof.
  unfold swallowed_releases. simpl combine. simpl filter. cbn [fst snd].
  now destruct (is_release (ty, ev) && (key_of ev =? k) && negb (is_pass v)).
Qed.

Lemma swallowed_run (m : Z) (k : Z) (events : list (CGEventType * CGEvent)) :
  Forall (fun e => fst e = kCGEventKeyUp -> to_uint64 (timestamp (snd e)) <> 0)
    events ->
  forall s : CFSet,
  (key_state s k <> Some 0 ->
   (swallowed_releases k events (fst (run m s events))
    <= swallowed_presses k events (fst (run m s events)))%nat) /\
  (key_state s k = Some 0 ->
   (swallowed_releases k events (fst (run m s events))
    <= S (swallowed_presses k events (fst (run m s events))))%nat).
Proof.
  intros HZ. induction events as [|[ty ev] rest IH]; intros s.
  - split; intros; cbv; lia.
  - inversion HZ as [|? ? NZ HZ']; subst. simpl in NZ. specialize (IH HZ').
    rewrite run_cons. cbn [fst].
    rewrite swallowed_presses_cons, swallowed_releases_cons.
    pose proof (own_step m s ty ev) as E.
    set (v := fst (OnKeyEvent m s ty ev)) in *.
    set (s1 := snd (OnKeyEvent m s ty ev)) in *.
    destruct (IH s1) as [IHc IHd].
    destruct (Z.eqb_spec (key_of ev) k) as [K|K].
    + subst k. rewrite !andb_true_r. split.
      * intros C. destruct ty; unfold is_press, is_release; cbn [fst andb].
        -- destruct (key_step_press_clean m _ (to_uint64 (timestamp ev)) C)
             as [P|P]; rewrite P in E; injection E as Ev Es;
             rewrite <- Ev; cbn [is_pass negb].
           ++ assert (C1 : key_state s1 (key_of ev) <> Some 0) by congruence.
              specialize (IHc C1). lia.
           ++ assert (D1 : key_state s1 (key_of ev) = Some 0) by congruence.
              specialize (IHd D1). lia.
        -- rewrite (key_step_release_clean m _ _ C) in E.
           injection E as Ev Es. rewrite <- Ev. cbn [is_pass negb].
           assert (C1 : key_state s1 (key_of ev) <> Some 0).
           { rewrite <- Es. intros [= F]. now apply NZ. }
           specialize (IHc C1). lia.
        -- assert (C1 : key_state s1 (key_of ev) <> Some 0).
           { unfold s1. now rewrite key_state_after. }
           specialize (IHc C1). lia.
      * intros D. rewrite D in E.
        destruct ty; unfold is_press, is_release; cbn [fst andb].
        -- rewrite key_step_press_held in E. injection E as Ev Es.
           rewrite <- Ev. cbn [is_pass negb].
           assert (D1 : key_state s1 (key_of ev) = Some 0) by congruence.
           specialize (IHd D1). lia.
        -- rewrite key_step_release_held in E. injection E as Ev Es.
           rewrite <- Ev. cbn [is_pass negb].
           assert (C1 : key_state s1 (key_of ev) <> Some 0).
           { rewrite <- Es. intros [= F]. now apply NZ. }
           specialize (IHc C1). lia.
        -- assert (D1 : key_state s1 (key_of ev) = Some 0).
           { unfold s1. now rewrite key_state_after, D. }
           specialize (IHd D1). lia.
    + rewrite !andb_false_r. cbn [andb].
      assert (F : key_state s1 k = key_state s k)
        by (apply OnKeyEvent_frame; congruence).
      rewrite F in IHc, IHd. split; [exact IHc | exact IHd].
Qed.

(** X3: when no release carries a timestamp that is 0 modulo [2^64], then in
    any run from the empty key set, and for every key, no more releases than
    presses are swallowed. *)
Theorem swallowed_releases_bounded (m : Z) (k : Z)
    (events : list (CGEventType * CGEvent)) :
  Forall (fun e => fst e = kCGEventKeyUp -> to_uint64 (timestamp (snd e)) <> 0)
    events ->
  (swallowed_releases k events (fst (run m [] events))
   <= swallowed_presses k events (fst (run m [] events)))%nat.
Proof.
  intros HZ. apply (swallowed_run m k events HZ []). discriminate.
Qed.

Lemma swallowed_releases_bounded_witness :
  (swallowed_releases 7
     [release 7 1; press 7 3; press 7 4; release 7 5; release 7 6]
     (fst (run 20000000 []
             [release 7 1; press 7 3; press 7 4; release 7 5; release 7 6]))
   <= swallowed_presses 7
        [release 7 1; press 7 3; press 7 4; release 7 5; release 7 6]
        (fst (run 20000000 []
                [release 7 1; press 7 3; press 7 4; release 7 5; release 7 6])))%nat.
Proof.
  apply (swallowed_releases_bounded 20000000 7
           [release 7 1; press 7 3; press 7 4; release 7 5; release 7 6]).
  repeat constructor; vm_compute; discriminate.
Defined.

(** ** What the key set holds *)




Lemma released_keys_In (events : list (CGEventType * CGEvent)) (k : Z) :
  In k (released_keys events)
  <-> exists ev, In (kCGEventKeyUp, ev) events /\ key_of ev = k.
Proof.
  unfold released_keys. rewrite nodup_In, in_map_iff. split.
  - intros [[ty ev] [E I]]. apply filter_In in I. destruct I as [I R].
    unfold is_release in R. simpl in *. destruct ty; try discriminate.
    now exists ev.
  - intros [ev [I E]]. exists (kCGEventKeyUp, ev). split; [exact E|].
    apply filter_In. now split.
Qed.

(** X5: the key set of a run from the empty set has exactly one record per
    key code released in the run: its size is the number of distinct key
    codes among the releases delivered, and presses never add to it. *)
Theorem key_set_size (m : Z) (events : list (CGEventType * CGEvent)) :
  length (snd (run m [] events)) = length (released_keys events).
Proof.
  rewrite <- (length_map nKeyCode).
  assert (A : forall k, In k (map nKeyCode (snd (run m [] events)))
                        <-> In k (released_keys events)).
  { intros k. rewrite run_In, released_keys_In. simpl. tauto. }
  apply Nat.le_antisymm; apply NoDup_incl_length.
  - apply run_NoDup. constructor.
  - intros k. apply A.
  - apply NoDup_nodup.
  - intros k. apply A.
Qed.

(** ** A burst of bounce *)

Lemma run_frame (m : Z) (k : Z) (events : list (CGEventType * CGEvent)) :
  Forall (fun e => key_of (snd e) <> k) events ->
  forall s, key_state (snd (run m s events)) k = key_state s k.
Proof.
  induction 1 as [|[ty ev] rest N _ IH]; intros s; [reflexivity|].
  rewrite run_cons. cbn [snd]. rewrite IH.
  apply OnKeyEvent_frame. simpl in N. congruence.
Qed.

Lemma run_frame_other (m : Z) (k k' : Z) (events : list (CGEventType * CGEvent)) :
  Forall (fun e => key_of (snd e) = k) events ->
  k' <> k ->
  forall s, key_state (snd (run m s events)) k' = key_state s k'.
Proof.
  intros HK N. apply run_frame.
  apply Forall_impl with (2 := HK). intros e E. congruence.
Qed.

Lemma press_held_step (m : Z) (s : CFSet) (ev : CGEvent) :
  key_state s (key_of ev) = Some 0 ->
  fst (OnKeyEvent m s kCGEventKeyDown ev) = Swallow /\
  key_state (snd (OnKeyEvent m s kCGEventKeyDown ev)) (key_of ev) = Some 0.
Proof. intros D. now rewrite verdict_of, key_state_after, D. Qed.

Lemma release_held_step (m : Z) (s : CFSet) (ev : CGEvent) :
  key_state s (key_of ev) = Some 0 ->
  fst (OnKeyEvent m s kCGEventKeyUp ev) = Swallow /\
  key_state (snd (OnKeyEvent m s kCGEventKeyUp ev)) (key_of ev)
    = Some (to_uint64 (timestamp ev)).
Proof. intros D. now rewrite verdict_of, key_state_after, D. Qed.

Lemma press_bounce_step (m : Z) (s : CFSet) (ev : CGEvent) (T : Z) :
  key_state s (key_of ev) = Some T -> T <> 0 ->
  to_uint64 (timestamp ev) < to_uint64 (T + m) ->
  fst (OnKeyEvent m s kCGEventKeyDown ev) = Swallow /\
  key_state (snd (OnKeyEvent m s kCGEventKeyDown ev)) (key_of ev) = Some 0.
Proof.
  intros K N L. rewrite verdict_of, key_state_after, K. cbn [key_step].
  destruct (Z.eqb_spec T 0); [contradiction|].
  destruct (Z.ltb_spec (to_uint64 (timestamp ev)) (to_uint64 (T + m)));
    [now split | lia].
Qed.

Lemma run_press (m : Z) (s : CFSet) (k t : Z)
    (rest : list (CGEventType * CGEvent)) :
  run m s (press k t :: rest)
  = (fst (OnKeyEvent m s kCGEventKeyDown (mkCGEvent k t))
       :: fst (run m (snd (OnKeyEvent m s kCGEventKeyDown (mkCGEvent k t))) rest),
     snd (run m (snd (OnKeyEvent m s kCGEventKeyDown (mkCGEvent k t))) rest)).
Proof. apply run_cons. Qed.

Lemma run_release (m : Z) (s : CFSet) (k t : Z)
    (rest : list (CGEventType * CGEvent)) :
  run m s (release k t :: rest)
  = (fst (OnKeyEvent m s kCGEventKeyUp (mkCGEvent k t))
       :: fst (run m (snd (OnKeyEvent m s kCGEventKeyUp (mkCGEvent k t))) rest),
     snd (run m (snd (OnKeyEvent m s kCGEventKeyUp (mkCGEvent k t))) rest)).
Proof. apply run_cons. Qed.

Lemma held_burst (m : Z) (k t2 : Z) (ts : list Z) :
  is_uint64 t2 ->
  forall s : CFSet,
  key_state s (to_uint64 k) = Some 0 ->
  fst (run m s (map (press k) ts ++ [release k t2]))
    = map (fun _ => Swallow) (map (press k) ts ++ [release k t2]) /\
  key_state (snd (run m s (map (press k) ts ++ [release k t2]))) (to_uint64 k)
    = Some t2.
Proof.
  intros U2. induction ts as [|t ts IH]; intros s D.
  - cbn [map app]. rewrite run_release.
    destruct (release_held_step m s (mkCGEvent k t2) D) as [V S].
    cbn [timestamp] in S. rewrite (to_uint64_small t2 U2) in S.
    cbn [run fst snd map]. now rewrite V.
  - cbn [map app]. rewrite run_press.
    destruct (press_held_step m s (mkCGEvent k t) D) as [V S].
    destruct (IH _ S) as [V' S'].
    cbn [fst snd map]. now rewrite V, V'.
Qed.

(** X6: when a press of a key with baseline [T] is swallowed as a bounce
    (its timestamp is below [T + m] modulo [2^64]), every further press of
    that key, whatever its timestamp, and the release that follows are
    swallowed too; the release's timestamp becomes the key's baseline and no
    other key's state changes. *)
Theorem bounce_burst_swallowed (m : Z) (s : CFSet) (k T t1 t2 : Z)
    (ts : list Z) :
  key_state s (to_uint64 k) = Some T ->
  T <> PRESSED ->
  is_uint64 t1 ->
  t1 < to_uint64 (T + m) ->
  is_uint64 t2 ->
  fst (run m s (press k t1 :: map (press k) ts ++ [release k t2]))
    = map (fun _ => Swallow) (press k t1 :: map (press k) ts ++ [release k t2]) /\
  key_state (snd (run m s (press k t1 :: map (press k) ts ++ [release k t2])))
    (to_uint64 k) = Some t2 /\
  (forall k', k' <> to_uint64 k ->
     key_state (snd (run m s (press k t1 :: map (press k) ts ++ [release k t2])))
       k' = key_state s k').
Proof.
  intros HT NP U1 L U2. unfold PRESSED in NP.
  assert (B : fst (OnKeyEvent m s kCGEventKeyDown (mkCGEvent k t1)) = Swallow /\
              key_state (snd (OnKeyEvent m s kCGEventKeyDown (mkCGEvent k t1)))
                (to_uint64 k) = Some 0).
  { apply (press_bounce_step m s (mkCGEvent k t1) T); try assumption.
    cbn [timestamp]. now rewrite (to_uint64_small t1 U1). }
  destruct B as [V S].
  destruct (held_burst m k t2 ts U2 _ S) as [V' S'].
  split; [|split].
  - rewrite run_press. cbn [fst snd map]. now rewrite V, V'.
  - rewrite run_press. cbn [snd]. exact S'.
  - intros k' N. apply run_frame.
    constructor; [exact (not_eq_sym N)|].
    apply Forall_app. split.
    + apply Forall_forall. intros e I. apply in_map_iff in I.
      destruct I as [t [<- _]]. exact (not_eq_sym N).
    + constructor; [exact (not_eq_sym N) | constructor].
Qed.

Lemma bounce_burst_swallowed_witness :
  fst (run 20000000 [mkKeyData 7 100]
         (press 7 150 :: map (press 7) [160; 90000000] ++ [release 7 90000001]))
    = [Swallow; Swallow; Swallow; Swallow] /\
  key_state
    (snd (run 20000000 [mkKeyData 7 100]
            (press 7 150 :: map (press 7) [160; 90000000]
               ++ [release 7 90000001])))
    (to_uint64 7) = Some 90000001.
Proof.
  destruct (bounce_burst_swallowed 20000000 [mkKeyData 7 100] 7 100 150
              90000001 [160; 90000000]) as [V [S _]];
    [reflexivity | discriminate | u64_range | vm_compute; reflexivity
     | u64_range |].
  exact (conj V S).
Defined.

(** ** The threshold [main] computes *)

(** X7: for an argument from 1 to 18446744073709 milliseconds the threshold
    is exactly that many milliseconds in nanoseconds; from 18446744073710 on
    the product no longer fits 64 bits and the threshold is its remainder
    modulo [2^64], which is smaller than the product. *)
Theorem main_config_exact (ms : Z) :
  is_uint64 ms ->
  (1 <= ms <= 18446744073709 -> main_config (Some ms) = ms * 1000000) /\
  (18446744073710 <= ms -> main_config (Some ms) < ms * 1000000).
Proof.
  intros U. assert (N : 1 <= ms -> ms <> 0) by lia. split; intros R.
  - rewrite main_config_ms by (auto; lia).
    apply to_uint64_small. unfold is_uint64. rewrite u64_modulus_value. lia.
  - rewrite main_config_ms by (auto; lia).
    pose proof (to_uint64_is_uint64 (ms * 1000000)) as B.
    unfold is_uint64 in B. rewrite u64_modulus_value in B. lia.
Qed.

Lemma main_config_exact_witness :
  main_config (Some 35) = 35 * 1000000 /\
  main_config (Some 18446744073710) < 18446744073710 * 1000000.
Proof.
  split.
  - apply (main_config_exact 35); [u64_range | lia].
  - apply (main_config_exact 18446744073710); [u64_range | lia].
Defined.

Lemma to_uint64_zero_iff (z : Z) : to_uint64 z = 0 <-> (u64_modulus | z).
Proof.
  unfold to_uint64. apply Z.mod_divide. rewrite u64_modulus_value. lia.
Qed.

(** X8: the replacement of 0 by the default does not rule out a threshold of
    0: for a 64-bit argument the threshold is 0 exactly when the argument is
    a non-zero multiple of [2^58]; and with the threshold 0 every press at or
    after the baseline of its key is passed. *)
Theorem zero_threshold (ms : Z) :
  is_uint64 ms ->
  (main_config (Some ms) = 0 <-> ms <> 0 /\ (2 ^ 58 | ms)) /\
  (forall (s : CFSet) (ev : CGEvent) (T : Z),
     key_state s (key_of ev) = Some T -> T <> PRESSED ->
     is_uint64 T -> is_uint64 (timestamp ev) -> T <= timestamp ev ->
     OnKeyEvent 0 s kCGEventKeyDown ev = (Pass, s)).
Proof.
  intros U. split.
  - destruct (Z.eq_dec ms 0) as [->|N].
    + split; [vm_compute; discriminate | intros [F _]; contradiction].
    + rewrite main_config_ms, to_uint64_zero_iff by assumption.
      replace (ms * 1000000) with (2 ^ 6 * (15625 * ms)) by lia.
      replace u64_modulus with (2 ^ 6 * 2 ^ 58) by reflexivity.
      rewrite Z.mul_divide_cancel_l by lia. split.
      * intros D. split; [exact N|].
        apply Z.gauss with (m := 15625); [exact D | reflexivity].
      * intros [_ D]. now apply Z.divide_mul_r.
  - intros s ev T K NP UT Ut L. unfold PRESSED in NP.
    rewrite OnKeyEvent_KeyDown_eq, K, Z.add_0_r.
    rewrite !to_uint64_small by assumption.
    destruct (Z.eqb_spec T 0); [contradiction|].
    destruct (Z.ltb_spec (timestamp ev) T); [lia | reflexivity].
Qed.

Lemma zero_threshold_witness :
  main_config (Some (2 ^ 58)) = 0 /\
  OnKeyEvent 0 [mkKeyData 7 100] kCGEventKeyDown (mkCGEvent 7 100)
    = (Pass, [mkKeyData 7 100]).
Proof.
  assert (U : is_uint64 (2 ^ 58)) by u64_range.
  destruct (zero_threshold (2 ^ 58) U) as [Z0 P]. split.
  - apply Z0. split; [discriminate | exists 1; reflexivity].
  - apply (P [mkKeyData 7 100] (mkCGEvent 7 100) 100);
      [reflexivity | discriminate | u64_range | u64_range | apply Z.le_refl].
Defined.

(** * The process around the engine *)

(** ** The run loop *)

Lemma set_theKeySet_same (g : Globals) (s : CFSet) :
  theKeySet g = Some s -> set_theKeySet (Some s) g = g.
Proof. destruct g. simpl. now intros ->. Qed.

Lemma CFRunLoopRun_run (inputs : list LoopInput) :
  forall (g : Globals) (s : CFSet),
  theKeySet g = Some s ->
  CFRunLoopRun inputs g
  = ((fst (run (theMinTimestampDiff g) s (dispatched inputs)),
      if stop_requested inputs then Stopped else Waiting),
     set_theKeySet
       (Some (snd (run (theMinTimestampDiff g) s (dispatched inputs)))) g,
     []).
Proof.
  induction inputs as [|[ty ev|sig] rest IH]; intros g s K.
  - simpl. now rewrite set_theKeySet_same.
  - cbn [CFRunLoopRun dispatched stop_requested].
    unfold bind, read, assign, ret. rewrite K.
    rewrite (IH (set_theKeySet
                   (Some (snd (OnKeyEvent (theMinTimestampDiff g) s ty ev))) g)
                (snd (OnKeyEvent (theMinTimestampDiff g) s ty ev)))
      by reflexivity.
    rewrite run_cons. destruct g. reflexivity.
  - cbn [CFRunLoopRun dispatched stop_requested].
    destruct (SignalCallBack sig); cbn [orb].
    + unfold ret. simpl. now rewrite set_theKeySet_same.
    + now apply IH.
Qed.

(** ** Setting up and tearing down the tap *)

(** X9: started with its three pointers [NULL], [Init] succeeds exactly when
    the key set, the event tap and the tap's run-loop source can all be
    created.  On success it leaves an empty key set, the tap and its source,
    the source added to the run loop, and nothing released.  On failure all
    three pointers are [NULL] again and every object it created has been
    released once, with the source removed first. *)
Theorem Init_all_or_nothing (p : Platform) (g : Globals) :
  theKeySet g = None -> theEventTap g = false -> theEventTapSource g = false ->
  result (Init p g) = tap_ok p /\
  (result (Init p g) = true ->
   theKeySet (globals_after (Init p g)) = Some [] /\
   theEventTap (globals_after (Init p g)) = true /\
   theEventTapSource (globals_after (Init p g)) = true /\
   calls (Init p g)
   = [Created KeySetObj; Created EventTapObj; Created EventTapSourceObj;
      CFRunLoopAddSource EventTapSourceObj]) /\
  (result (Init p g) = false ->
   globals_after (Init p g) = g /\
   replay [] [] (calls (Init p g)) = Some ([], [])).
Proof.
  destruct p as [eu pp b1 b2 sg b3 b4 b5], g as [g1 g2 g3 g4 g5 g6 g7].
  simpl. intros -> -> ->. unfold tap_ok. simpl.
  destruct b3, b4, b5; vm_compute; repeat split; intros; congruence.
Qed.

Lemma Init_all_or_nothing_witness :
  result (Init no_tap_platform initial_globals) = tap_ok no_tap_platform /\
  globals_after (Init no_tap_platform initial_globals) = initial_globals /\
  replay [] [] (calls (Init no_tap_platform initial_globals)) = Some ([], []).
Proof.
  destruct (Init_all_or_nothing no_tap_platform initial_globals)
    as [R [_ F]]; [reflexivity | reflexivity | reflexivity |].
  split; [exact R|]. apply F. reflexivity.
Defined.

(** X10: [Deinit] releases exactly the objects whose pointers are not
    [NULL] and sets the three pointers to [NULL], so a second [Deinit] makes
    no call at all; a second [DeinitSignalHandling] only repeats the four
    [sigaction] calls and releases nothing. *)
Theorem teardown_twice (p : Platform) (g : Globals) :
  theKeySet (globals_after (Deinit g)) = None /\
  theEventTap (globals_after (Deinit g)) = false /\
  theEventTapSource (globals_after (Deinit g)) = false /\
  Deinit (globals_after (Deinit g)) = (tt, globals_after (Deinit g), []) /\
  calls (DeinitSignalHandling p (globals_after (DeinitSignalHandling p g)))
  = [sigaction SIGPIPE SIG_DFL (sigaction_ok p SIGPIPE SIG_DFL);
     sigaction SIGTERM SIG_DFL (sigaction_ok p SIGTERM SIG_DFL);
     sigaction SIGINT SIG_DFL (sigaction_ok p SIGINT SIG_DFL);
     sigaction SIGHUP SIG_DFL (sigaction_ok p SIGHUP SIG_DFL)].
Proof.
  destruct p as [eu pp b1 b2 sg b3 b4 b5], g as [g1 g2 g3 g4 g5 g6 g7].
  destruct g1, g2, g4 as [s|], g5, g6; repeat split; reflexivity.
Qed.

(** ** Signal handling *)

(** X11: started with its pointers [NULL], [InitSignalHandling] succeeds
    exactly when the port and its source can be created and the four
    [sigaction] calls return 0.  On success [SignalHandler] is in force for
    SIGHUP, SIGINT and SIGTERM, SIGPIPE is ignored, and a handled signal is
    forwarded as one message.  On failure the pointers are [NULL] again,
    what was created has been released, and [SignalHandler] sends
    nothing. *)
Theorem InitSignalHandling_all_or_nothing (p : Platform) (g : Globals)
    (before : Disposition) (sig : Signal) :
  theSignalPort g = false -> theSignalSource g = false ->
  theRawSignalPort g = false ->
  result (InitSignalHandling p g) = signals_ok p /\
  (result (InitSignalHandling p g) = true ->
   disposition_after (calls (InitSignalHandling p g)) sig before
   = match sig with
     | SIGPIPE => SIG_IGN
     | _ => SIG_SignalHandler
     end /\
   calls (SignalHandler sig (globals_after (InitSignalHandling p g)))
   = [mach_msg_send sig] /\
   replay [] [] (calls (InitSignalHandling p g))
   = Some ([SignalSourceObj; SignalPortObj], [SignalSourceObj])) /\
  (result (InitSignalHandling p g) = false ->
   globals_after (InitSignalHandling p g) = g /\
   replay [] [] (calls (InitSignalHandling p g)) = Some ([], []) /\
   calls (SignalHandler sig (globals_after (InitSignalHandling p g))) = []).
Proof.
  destruct p as [eu pp b1 b2 sg b3 b4 b5], g as [g1 g2 g3 g4 g5 g6 g7].
  simpl. intros -> -> ->. unfold signals_ok. simpl.
  unfold InitSignalHandling, InitSignalHandling_body, DeinitSignalHandling,
    do_sigaction, SignalHandler, result, globals_after, calls, bind, call,
    read, assign, when, ret. cbn [sigaction_ok CFMachPortCreate_ok
    SignalSource_ok].
  destruct b1; [destruct b2|]; cbn;
    [destruct (sg SIGHUP SIG_SignalHandler); cbn;
     [destruct (sg SIGINT SIG_SignalHandler); cbn;
      [destruct (sg SIGTERM SIG_SignalHandler); cbn;
       [destruct (sg SIGPIPE SIG_IGN); cbn|]|]|]| |];
    (split; [reflexivity|]); split; intros H; try discriminate H;
    repeat split; try reflexivity.
  now destruct sig.
Qed.

Lemma InitSignalHandling_all_or_nothing_witness :
  result (InitSignalHandling good_platform initial_globals)
    = signals_ok good_platform /\
  disposition_after (calls (InitSignalHandling good_platform initial_globals))
    SIGTERM SIG_DFL = SIG_SignalHandler.
Proof.
  destruct (InitSignalHandling_all_or_nothing good_platform initial_globals
              SIG_DFL SIGTERM) as [R [T _]];
    [reflexivity | reflexivity | reflexivity |].
  split; [exact R|]. apply T. reflexivity.
Defined.

(** ** [main] *)

Lemma main_started (p : Platform) (argv1 : option Z) (inputs : list LoopInput) :
  privileged p && signals_ok p && tap_ok p = true ->
  result (main p argv1 inputs initial_globals)
  = (if stop_requested inputs then Exit 0 else Running,
     fst (daemon argv1 (dispatched inputs))) /\
  replay [] [] (calls (main p argv1 inputs initial_globals))
  = (if stop_requested inputs then Some ([], [])
     else Some ([EventTapSourceObj; EventTapObj; KeySetObj;
                 SignalSourceObj; SignalPortObj],
                [EventTapSourceObj; SignalSourceObj])) /\
  all_null (globals_after (main p argv1 inputs initial_globals))
  = stop_requested inputs /\
  (stop_requested inputs = false ->
   theKeySet (globals_after (main p argv1 inputs initial_globals))
   = Some (snd (daemon argv1 (dispatched inputs)))).
Proof.
  destruct p as [eu pp b1 b2 sg b3 b4 b5].
  unfold privileged, signals_ok, tap_ok. simpl. intros H.
  repeat match goal with
         | E : _ && _ = true |- _ => apply andb_prop in E; destruct E
         end.
  subst. unfold_process. cbn [geteuid getppid CFMachPortCreate_ok
    SignalSource_ok sigaction_ok CFSetCreateMutable_ok CGEventTapCreate_ok
    EventTapSource_ok].
  repeat match goal with E : _ = true |- _ => rewrite E; clear E end.
  cbn -[CFRunLoopRun to_uint64 Z.mul].
  erewrite CFRunLoopRun_run by reflexivity.
  cbn -[run to_uint64 Z.mul]. fold (main_config argv1).
  unfold daemon.
  destruct (stop_requested inputs); cbn -[run to_uint64 Z.mul main_config];
    repeat split; try reflexivity; discriminate.
Qed.

Lemma main_not_started (p : Platform) (argv1 : option Z)
    (inputs : list LoopInput) :
  privileged p && signals_ok p && tap_ok p = false ->
  result (main p argv1 inputs initial_globals) = (Exit 1, []) /\
  replay [] [] (calls (main p argv1 inputs initial_globals)) = Some ([], []) /\
  all_null (globals_after (main p argv1 inputs initial_globals)) = true.
Proof.
  destruct p as [eu pp b1 b2 sg b3 b4 b5].
  unfold privileged, signals_ok, tap_ok. unfold_process.
  cbn [geteuid getppid CFMachPortCreate_ok SignalSource_ok sigaction_ok
       CFSetCreateMutable_ok CGEventTapCreate_ok EventTapSource_ok].
  destruct (eu =? 0); [|intros _; cbn; repeat split; reflexivity].
  destruct (pp =? 1); [|intros _; cbn; repeat split; reflexivity].
  destruct b1; [|intros _; cbn; repeat split; reflexivity].
  destruct b2; [|intros _; cbn; repeat split; reflexivity].
  destruct (sg SIGHUP SIG_SignalHandler);
    [|intros _; cbn; repeat split; reflexivity].
  destruct (sg SIGINT SIG_SignalHandler);
    [|intros _; cbn; repeat split; reflexivity].
  destruct (sg SIGTERM SIG_SignalHandler);
    [|intros _; cbn; repeat split; reflexivity].
  destruct (sg SIGPIPE SIG_IGN);
    [|intros _; cbn; repeat split; reflexivity].
  destruct b3;
    [|intros _; cbn -[to_uint64 Z.mul]; repeat split; reflexivity].
  destruct b4;
    [|intros _; cbn -[to_uint64 Z.mul]; repeat split; reflexivity].
  destruct b5;
    [|intros _; cbn -[to_uint64 Z.mul]; repeat split; reflexivity].
  discriminate.
Qed.



(** X13: whenever [main] returns, with either exit code, every object it
    created has been released exactly once, every run-loop source it added
    has been removed, no call was made on an object that did not exist, and
    all the pointers are [NULL]. *)
Theorem main_releases_everything (p : Platform) (argv1 : option Z)
    (inputs : list LoopInput) (code : Z) :
  fst (result (main p argv1 inputs initial_globals)) = Exit code ->
  replay [] [] (calls (main p argv1 inputs initial_globals)) = Some ([], []) /\
  all_null (globals_after (main p argv1 inputs initial_globals)) = true.
Proof.
  intros E. destruct (privileged p && signals_ok p && tap_ok p) eqn:S.
  - destruct (main_started p argv1 inputs S) as [R [L [N _]]].
    rewrite R in E. cbn [fst] in E. rewrite L, N.
    destruct (stop_requested inputs); [now split | discriminate].
  - destruct (main_not_started p argv1 inputs S) as [_ [L N]]. now split.
Qed.

Lemma main_releases_everything_witness :
  replay [] []
    (calls (main good_platform None
              [TapEvent kCGEventKeyUp (mkCGEvent 7 1); PortMessage SIGHUP;
               PortMessage SIGINT]
              initial_globals)) = Some ([], []) /\
  all_null
    (globals_after (main good_platform None
                      [TapEvent kCGEventKeyUp (mkCGEvent 7 1);
                       PortMessage SIGHUP; PortMessage SIGINT]
                      initial_globals)) = true.
Proof.
  apply (main_releases_everything good_platform None
           [TapEvent kCGEventKeyUp (mkCGEvent 7 1); PortMessage SIGHUP;
            PortMessage SIGINT] 0).
  vm_compute. reflexivity.
Defined.

(** X14: once start-up has succeeded, the verdicts [main] gives are those
    of the engine, started on an empty key set with the threshold of
    [main_config], on the tap events dispatched before the first SIGINT or
    SIGTERM message: events after that message are not filtered, and SIGHUP
    messages change nothing.  While no such message has come, the key set is
    the engine's. *)
Theorem main_filters_as_daemon (p : Platform) (argv1 : option Z)
    (inputs : list LoopInput) :
  privileged p && signals_ok p && tap_ok p = true ->
  snd (result (main p argv1 inputs initial_globals))
  = fst (daemon argv1 (dispatched inputs)) /\
  (stop_requested inputs = false ->
   theKeySet (globals_after (main p argv1 inputs initial_globals))
   = Some (snd (daemon argv1 (dispatched inputs)))).
Proof.
  intros S. destruct (main_started p argv1 inputs S) as [R [_ [_ K]]].
  rewrite R. split; [reflexivity | exact K].
Qed.

Lemma main_filters_as_daemon_witness :
  snd (result (main good_platform (Some 20)
                 [TapEvent kCGEventKeyUp (mkCGEvent 7 1); PortMessage SIGHUP;
                  TapEvent kCGEventKeyDown (mkCGEvent 7 5);
                  PortMessage SIGTERM;
                  TapEvent kCGEventKeyUp (mkCGEvent 7 9)]
                 initial_globals))
  = fst (daemon (Some 20) [release 7 1; press 7 5]).
Proof.
  apply (main_filters_as_daemon good_platform (Some 20)
           [TapEvent kCGEventKeyUp (mkCGEvent 7 1); PortMessage SIGHUP;
            TapEvent kCGEventKeyDown (mkCGEvent 7 5); PortMessage SIGTERM;
            TapEvent kCGEventKeyUp (mkCGEvent 7 9)]).
  reflexivity.
Defined.

(** ** Members of the key set *)

Lemma OnKeyEvent_hashes (m : Z) (s : CFSet) (ty : CGEventType) (ev : CGEvent) :
  map KeyDataHash (snd (OnKeyEvent m s ty ev)) = map KeyDataHash s \/
  (ty = kCGEventKeyUp /\
   map KeyDataHash (snd (OnKeyEvent m s ty ev))
   = key_of ev :: map KeyDataHash s).
Proof.
  change (map KeyDataHash) with (map nKeyCode). rewrite OnKeyEvent_keys.
  destruct ty; auto.
  destruct (key_state s (key_of ev)); auto.
Qed.

(** X15: [OnKeyEvent] writes to members of the key set in place, and the
    set hashes its members with [KeyDataHash]; along any run, from any key
    set, the members present at the start stay in place with their hash
    unchanged, and what is added in front of them are records of keys
    released in the run. *)
Theorem members_keep_their_hash (m : Z) (s : CFSet)
    (events : list (CGEventType * CGEvent)) :
  exists added : list Z,
    map KeyDataHash (snd (run m s events)) = added ++ map KeyDataHash s /\
    incl added (released_keys events).
Proof.
  revert s. induction events as [|[ty ev] rest IH]; intros s.
  - exists []. split; [reflexivity | intros k []].
  - rewrite run_cons. cbn [snd].
    destruct (IH (snd (OnKeyEvent m s ty ev))) as [added [E I]].
    assert (I' : incl added (released_keys ((ty, ev) :: rest))).
    { intros k Hk. apply released_keys_In.
      destruct (proj1 (released_keys_In rest k) (I k Hk)) as [e [He Ke]].
      exists e. split; [now right | exact Ke]. }
    destruct (OnKeyEvent_hashes m s ty ev) as [H|[-> H]]; rewrite H in E.
    + exists added. now split.
    + exists (added ++ [key_of ev]). split.
      * now rewrite <- app_assoc.
      * intros k Hk. apply in_app_or in Hk. destruct Hk as [Hk|[<-|[]]].
        -- now apply I'.
        -- apply released_keys_In. exists ev. split; [now left | reflexivity].
Qed.
